(** * ForerunnerDB: the multi-level binary tree and the live View core

    A shallow embedding of [BinaryTree] (BTree.js) and of the parts of
    [View], [Collection] and [Db] that View.js defines, with the
    properties the specification states about them.

    JavaScript values are modelled by the inductive [value]; numbers are
    the integers.  The services of the JavaScript host that the code calls
    (locale-sensitive string comparison, string-to-number conversion,
    object-to-string conversion) are the fields of the class [Host]. *)

From Stdlib Require Import ZArith Lia String List Sorted Permutation.
From stdpp Require Import base tactics option list sorting gmap strings.

Import ListNotations.
Local Open Scope Z_scope.

(** ** JavaScript values *)

#[local] Set Warnings "-register-all".

Inductive value : Type :=
| VUndef
| VNull
| VBool (b : bool)
| VNum (n : Z)
| VStr (s : string)
| VArr (items : list value)
| VObj (props : list (string * value)).

(** An object is its list of own properties, in creation order. *)
Definition object : Type := list (string * value).

(** A document is an object. *)
Definition doc : Type := object.

(** [o[k]]: reading an absent property gives [undefined]. *)
Fixpoint get (o : object) (k : string) : value :=
  match o with
  | [] => VUndef
  | (k', v) :: rest => if String.eqb k' k then v else get rest k
  end.

(** [o[k] = v]: an existing property keeps its place, a new one goes last. *)
Fixpoint set (o : object) (k : string) (v : value) : object :=
  match o with
  | [] => [(k, v)]
  | (k', v') :: rest =>
      if String.eqb k' k then (k', v) :: rest else (k', v') :: set rest k v
  end.

(** [delete o[k]]. *)
Fixpoint del (o : object) (k : string) : object :=
  match o with
  | [] => []
  | (k', v') :: rest =>
      if String.eqb k' k then rest else (k', v') :: del rest k
  end.

(** Property read on any value: only objects have the properties the code
    reads. *)
Definition prop (v : value) (k : string) : value :=
  match v with
  | VObj o => get o k
  | _ => VUndef
  end.

(** ToBoolean. *)
Definition truthy (v : value) : bool :=
  match v with
  | VUndef | VNull => false
  | VBool b => b
  | VNum n => negb (n =? 0)
  | VStr s => negb (String.eqb s EmptyString)
  | VArr _ | VObj _ => true
  end.

(** Modelled from the spec: jParse and jStringify, which the decouple
    methods compose, come from a mixin that is not part of these sources.
    The spec has decoupling produce a deep copy that shares nothing with
    the original; values here are immutable, and the copy of a value is
    the value. *)
Definition jParse_jStringify (data : value) : value := data.

(** ** Exceptions *)

Inductive error : Type :=
| TypeError              (* a property read or a call on [undefined] *)
| Thrown (msg : string). (* [throw(msg)] *)

Inductive result (A : Type) : Type :=
| Ok (a : A)
| Throw (e : error).
Arguments Ok {A} a.
Arguments Throw {A} e.

#[global] Instance result_ret : MRet result := fun A a => Ok a.
#[global] Instance result_bind : MBind result := fun A B f m =>
  match m with Ok a => f a | Throw e => Throw e end.

(** ** The host *)

Class Host : Type := {
  (** [a.localeCompare(b)] *)
  localeCompare : string -> string -> Z;
  (** ToNumber on a string; [None] is NaN *)
  StringToNumber : string -> option Z;
  (** the primitive an array or a plain object converts to *)
  ObjectToString : value -> string
}.

Section Compare.
Context {host : Host}.

Definition ToPrimitive (v : value) : value :=
  match v with
  | VArr _ | VObj _ => VStr (ObjectToString v)
  | _ => v
  end.

(** ToNumber on a primitive; [None] is NaN. *)
Definition ToNumber (v : value) : option Z :=
  match v with
  | VUndef => None
  | VNull => Some 0
  | VBool b => Some (Z.b2z b)
  | VNum n => Some n
  | VStr s => StringToNumber s
  | VArr _ | VObj _ => None
  end.

(** [a < b]: two strings compare by code units, anything else as
    numbers, and a comparison with NaN is false. *)
Definition js_lt (a b : value) : bool :=
  match ToPrimitive a, ToPrimitive b with
  | VStr s1, VStr s2 => String.ltb s1 s2
  | pa, pb =>
      match ToNumber pa, ToNumber pb with
      | Some x, Some y => x <? y
      | _, _ => false
      end
  end.

(** [a > b]. *)
Definition js_gt (a b : value) : bool := js_lt b a.

(** ** BinaryTree: the comparator *)

(** BinaryTree.prototype.sortAsc *)
Definition sortAsc (a b : value) : Z :=
  match a, b with
  | VStr s1, VStr s2 => localeCompare s1 s2
  | _, _ => if js_gt a b then 1 else if js_lt a b then -1 else 0
  end.

(** BinaryTree.prototype.sortDesc *)
Definition sortDesc (a b : value) : Z :=
  match a, b with
  | VStr s1, VStr s2 => localeCompare s2 s1
  | _, _ => if js_gt a b then -1 else if js_lt a b then 1 else 0
  end.

(** One entry of the index array: [{key: ..., val: ...}]. *)
Record indexField : Type := IndexField { key : string; val : value }.

(** BinaryTree.prototype.keys: an index given as an object
    [{a: 1, b: -1}] becomes the array of its key/val entries. *)
Definition keys (obj : object) : list indexField :=
  map (fun kv => IndexField (fst kv) (snd kv)) obj.

Definition is_num (v : value) (n : Z) : bool :=
  match v with VNum m => m =? n | _ => false end.

(** BinaryTree.prototype._compareFunc; [_indexField] is [_index[0]]. *)
Definition _compareFunc (_index : list indexField) (a b : doc) : Z :=
  match _index with
  | [] => 0
  | indexData :: _ =>
      if is_num (val indexData) 1 then
        sortAsc (get a (key indexData)) (get b (key indexData))
      else if is_num (val indexData) (-1) then
        sortDesc (get a (key indexData)) (get b (key indexData))
      else 0
  end.

(** ** BinaryTree: the nodes *)

(** A node with its fields [_store], [_index], [_data], [_left],
    [_middle], [_right]; an unset field is [None]. *)
Inductive BinaryTree : Type :=
| Tree (_store : list doc) (_index : list indexField) (_data : option doc)
       (_left _middle _right : option BinaryTree).

Definition store_of (t : BinaryTree) : list doc :=
  let 'Tree s _ _ _ _ _ := t in s.
Definition index_of (t : BinaryTree) : list indexField :=
  let 'Tree _ i _ _ _ _ := t in i.
Definition data_of (t : BinaryTree) : option doc :=
  let 'Tree _ _ d _ _ _ := t in d.
Definition left_of (t : BinaryTree) : option BinaryTree :=
  let 'Tree _ _ _ l _ _ := t in l.
Definition middle_of (t : BinaryTree) : option BinaryTree :=
  let 'Tree _ _ _ _ m _ := t in m.
Definition right_of (t : BinaryTree) : option BinaryTree :=
  let 'Tree _ _ _ _ _ r := t in r.

(** What a method hands back: [true], [undefined], or an object (the
    node itself, from a setter used for chaining). *)
Inductive returned : Type := RTrue | RUndefined | RThis.

Definition returned_truthy (r : returned) : bool :=
  match r with RUndefined => false | _ => true end.

(** [new BinaryTree(undefined, index)]: the empty root. *)
Definition emptyTree (index : list indexField) : BinaryTree :=
  Tree [] index None None None None.

(** [new BinaryTree(val, index)] for a document [val]: the constructor
    stores [val] as the node's data and calls [insertMiddle(val)] on the
    fresh node, which pushes [val] on the store and, when the index has a
    further level, creates the middle node on the rest of the index. *)
Fixpoint newBinaryTree (val : doc) (index : list indexField) : BinaryTree :=
  Tree [val] index (Some val) None
       (match index with
        | [] => None
        | _ :: newIndexArr =>
            match newIndexArr with
            | [] => None
            | _ :: _ => Some (newBinaryTree val newIndexArr)
            end
        end)
       None.

(** BinaryTree.prototype.insert for one document, together with
    insertLeft, insertMiddle and insertRight, which it calls.  The result
    is the node after the call and what [insert] returns: it returns
    [true] only where it stores the data of an empty node, and falls off
    its end, returning [undefined], after the three comparisons. *)
Fixpoint insert (t : BinaryTree) (val : doc) : BinaryTree * returned :=
  let 'Tree store index data lft mid rgt := t in
  let insertMiddle (data' : option doc) : BinaryTree * returned :=
    match mid with
    | Some m =>
        let (m', r) := insert m val in
        (Tree (store ++ [val]) index data' lft (Some m') rgt, r)
    | None =>
        match tail index with
        | [] => (Tree (store ++ [val]) index data' lft None rgt, RTrue)
        | newIndexArr =>
            (Tree (store ++ [val]) index data' lft
                  (Some (newBinaryTree val newIndexArr)) rgt, RThis)
        end
    end in
  match data with
  | None => (fst (insertMiddle (Some val)), RTrue)
  | Some d =>
      let comp := _compareFunc index val d in
      if comp =? -1 then
        match lft with
        | Some l =>
            (Tree store index data (Some (fst (insert l val))) mid rgt,
             RUndefined)
        | None =>
            (Tree store index data (Some (newBinaryTree val index)) mid rgt,
             RUndefined)
        end
      else if comp =? 0 then (fst (insertMiddle data), RUndefined)
      else if comp =? 1 then
        match rgt with
        | Some r =>
            (Tree store index data lft mid (Some (fst (insert r val))),
             RUndefined)
        | None =>
            (Tree store index data lft mid (Some (newBinaryTree val index)),
             RUndefined)
        end
      else (t, RUndefined)
  end.

(** What [insert] returns for an array. *)
Record batchResult : Type := BatchResult { inserted : list doc; failed : list doc }.

(** BinaryTree.prototype.insert for an array: every item is inserted in
    turn, and goes to [inserted] when the call returns a truthy value,
    to [failed] otherwise. *)
Fixpoint insert_loop (t : BinaryTree) (vals : list doc) (ins fl : list doc)
  : BinaryTree * batchResult :=
  match vals with
  | [] => (t, BatchResult ins fl)
  | v :: rest =>
      let (t', r) := insert t v in
      if returned_truthy r then insert_loop t' rest (ins ++ [v]) fl
      else insert_loop t' rest ins (fl ++ [v])
  end.

Definition insert_array (t : BinaryTree) (vals : list doc)
  : BinaryTree * batchResult :=
  insert_loop t vals [] [].

(** BinaryTree.prototype.inOrder *)
Fixpoint inOrder (t : BinaryTree) (resultArr : list doc) : list doc :=
  let 'Tree store _ _ lft mid rgt := t in
  let r1 := match lft with Some l => inOrder l resultArr | None => resultArr end in
  let r2 := match mid with Some m => inOrder m r1 | None => r1 ++ store end in
  match rgt with Some r => inOrder r r2 | None => r2 end.

(** BinaryTree.prototype.decouple of a query object, without [copies]:
    [jParse(jStringify(data))]. *)
Definition decouple (data : object) : object :=
  match jParse_jStringify (VObj data) with
  | VObj copy => copy
  | _ => data
  end.

(** BinaryTree.prototype.lookup.  Reading [key] of an undefined
    [_indexField], or a field of an undefined [_data], is a TypeError. *)
Fixpoint lookup (t : BinaryTree) (query : object) : result (list doc) :=
  let 'Tree store index data lft mid rgt := t in
  match index with
  | [] => Throw TypeError
  | _indexField :: _ =>
      if truthy (get query (key _indexField)) then
        match data with
        | None => Throw TypeError
        | Some d =>
            let result := _compareFunc index query d in
            r1 ← (if result =? -1 then
                    match lft with Some l => lookup l query | None => Ok [] end
                  else Ok []);
            r2 ← (if result =? 0 then
                    let query' := del (decouple query) (key _indexField) in
                    match mid with
                    | Some m =>
                        match index_of m with
                        | [] => Throw TypeError
                        | mf :: _ =>
                            match get query' (key mf) with
                            | VUndef => Ok (inOrder m [])
                            | _ => lookup m query'
                            end
                        end
                    | None => Ok store
                    end
                  else Ok []);
            r3 ← (if result =? 1 then
                    match rgt with Some r => lookup r query | None => Ok [] end
                  else Ok []);
            Ok (r1 ++ r2 ++ r3)
        end
      else
        (* Return all results in this b-tree *)
        r1 ← match lft with Some l => lookup l query | None => Ok [] end;
        r2 ← match mid with Some m => lookup m query | None => Ok store end;
        r3 ← match rgt with Some r => lookup r query | None => Ok [] end;
        Ok (r1 ++ r2 ++ r3)
  end.

(** What [lookup] gathers when the query does not constrain the level:
    the results of the left node, then of the middle node, or the store
    when there is none, then of the right node. *)
Definition gather (t : BinaryTree) (query : object) : result (list doc) :=
  r1 ← match left_of t with Some l => lookup l query | None => Ok [] end;
  r2 ← match middle_of t with Some m => lookup m query | None => Ok (store_of t) end;
  r3 ← match right_of t with Some r => lookup r query | None => Ok [] end;
  Ok (r1 ++ r2 ++ r3).

End Compare.

(** ** BinaryTree: insertion order, in-order traversal and sorting *)

Section TreeOrder.
Context {host : Host}.

(** Inserting documents one after the other, as the loop of the array
    case does. *)
Definition insert_all (t : BinaryTree) (vals : list doc) : BinaryTree :=
  fold_left (fun t' v => fst (insert t' v)) vals t.

(** The compound comparator of an index: the first level whose
    comparator tells the two documents apart decides. *)
Fixpoint compareIndex (index : list indexField) (a b : doc) : Z :=
  match index with
  | [] => 0
  | _ :: rest =>
      let c := _compareFunc index a b in
      if c =? 0 then compareIndex rest a b else c
  end.

(** A sequence is sorted under an index when no document is followed,
    at any distance, by one that compares smaller. *)
Definition sorted_under (index : list indexField) (l : list doc) : Prop :=
  StronglySorted (fun a b => compareIndex index a b <= 0) l.

(** Placing [x] in a sequence: after every document it does not compare
    smaller than, before the first one it compares smaller than. *)
Fixpoint place (index : list indexField) (x : doc) (l : list doc) : list doc :=
  match l with
  | [] => [x]
  | y :: rest =>
      if compareIndex index x y =? -1 then x :: y :: rest
      else y :: place index x rest
  end.

(** The stable insertion sort of a sequence of documents. *)
Definition stable_sort (index : list indexField) (l : list doc) : list doc :=
  fold_left (fun acc x => place index x acc) l [].

(** The comparator of the first level of [index] is a total preorder on
    the documents of [D]: it answers -1, 0 or 1, swapping the arguments
    negates the answer, and "not greater" is transitive. *)
Definition level_total (index : list indexField) (D : list doc) : Prop :=
  (forall a b, a ∈ D -> b ∈ D ->
     _compareFunc index b a = - _compareFunc index a b /\
     -1 <= _compareFunc index a b <= 1) /\
  (forall a b c, a ∈ D -> b ∈ D -> c ∈ D ->
     _compareFunc index a b <= 0 -> _compareFunc index b c <= 0 ->
     _compareFunc index a c <= 0).

(** Every level of the index is a total preorder on [D]. *)
Fixpoint index_total (index : list indexField) (D : list doc) : Prop :=
  match index with
  | [] => True
  | _ :: rest => level_total index D /\ index_total rest D
  end.

(** No two different documents of [D] tie on every level. *)
Definition no_ties (index : list indexField) (D : list doc) : Prop :=
  forall a b, a ∈ D -> b ∈ D -> compareIndex index a b = 0 -> a = b.

(** Every indexed field of every document of [D] holds a number. *)
Definition numeric_on (index : list indexField) (D : list doc) : Prop :=
  Forall (fun d => Forall (fun f => exists n, get d (key f) = VNum n) index) D.

(** The shape every node built by the constructor and [insert] has. *)
Definition oForall (P : BinaryTree -> Prop) (o : option BinaryTree) : Prop :=
  match o with Some t => P t | None => True end.

Fixpoint wf (t : BinaryTree) : Prop :=
  let 'Tree store index data lft mid rgt := t in
  match data with
  | None => store = [] /\ lft = None /\ mid = None /\ rgt = None
  | Some d =>
      d ∈ store /\
      Forall (fun x => _compareFunc index x d = 0) store /\
      match lft with
      | None => True
      | Some l =>
          wf l /\ index_of l = index /\ data_of l <> None /\
          Forall (fun x => _compareFunc index x d = -1) (inOrder l [])
      end /\
      match rgt with
      | None => True
      | Some r =>
          wf r /\ index_of r = index /\ data_of r <> None /\
          Forall (fun x => _compareFunc index x d = 1) (inOrder r [])
      end /\
      match mid with
      | None => tail index = []
      | Some m =>
          tail index <> [] /\ wf m /\ index_of m = tail index /\
          data_of m <> None /\ inOrder m [] ≡ₚ store
      end
  end.

(** The traversal of a child that may be absent, and the part of the
    traversal of a node that lies between those of its left and right
    children. *)
Definition inOrder_opt (o : option BinaryTree) : list doc :=
  match o with Some t => inOrder t [] | None => [] end.

Definition mid_part (store : list doc) (mid : option BinaryTree) : list doc :=
  match mid with Some m => inOrder m [] | None => store end.

(** What inserting [x] does to a node whose documents lie in [D]: the
    node keeps its shape, and its traversal is the old one with [x]
    placed in it. *)
Definition insert_ok (D : list doc) (x : doc) (t : BinaryTree) : Prop :=
  wf t -> index_total (index_of t) D -> Forall (fun y => y ∈ D) (inOrder t []) ->
  wf (fst (insert t x)) /\
  inOrder (fst (insert t x)) [] = place (index_of t) x (inOrder t []).

Fixpoint BinaryTree_ind' (P : BinaryTree -> Prop)
    (step : forall s i d l m r,
        oForall P l -> oForall P m -> oForall P r -> P (Tree s i d l m r))
    (t : BinaryTree) : P t :=
  match t with
  | Tree s i d l m r =>
      step s i d l m r
        (match l return oForall P l with
         | Some t' => BinaryTree_ind' P step t' | None => I end)
        (match m return oForall P m with
         | Some t' => BinaryTree_ind' P step t' | None => I end)
        (match r return oForall P r with
         | Some t' => BinaryTree_ind' P step t' | None => I end)
  end.

End TreeOrder.

(** ** Chain packets and the ReactorIO transform of a View *)

(** A chain packet as [chainSend(type, data, options)] builds it. *)
Record packet : Type := Packet { ptype : string; pdata : value; poptions : value }.

(** [chainSend(type, data)]: the options are left undefined. *)
Definition chainSend (type : string) (data : value) : packet :=
  Packet type data VUndef.

(** What [Collection.diff] returns. *)
Record diff : Type := Diff {
  diff_insert : list doc;
  diff_update : list doc;
  diff_remove : list doc
}.

(** What the transform function reads from the View that owns it and
    from the collections around it, none of which it changes:
    whether the View is dropped, [_querySettings.query] and
    [_querySettings.options], the predicate [_privateData._match(doc,
    query, options, 'and', {})], the value of
    [_privateData.diff(_from.subset(query, options))] and
    [_privateData.primaryKey()]. *)
Record ioContext : Type := IoContext {
  io_isDropped : bool;
  io_query : value;
  io_options : value;
  io_match : value -> value -> value -> bool;
  io_diff : value -> value -> diff;
  io_primaryKey : string
}.

Definition nonempty {A : Type} (l : list A) : bool :=
  match l with [] => false | _ :: _ => true end.

(** The [insert] branch of the transform function. *)
Definition transform_insert (self : ioContext) (data : value) : list packet :=
  match data with
  | VArr items =>
      let filteredData :=
        filter (fun d => io_match self d (io_query self) (io_options self) = true) items in
      if nonempty filteredData then [chainSend "insert" (VArr filteredData)] else []
  | _ =>
      if io_match self data (io_query self) (io_options self)
      then [chainSend "insert" data] else []
  end.

(** The packets the [update] branch sends for a diff, in the order it
    sends them. *)
Definition update_packets (pk : string) (d : diff) : list packet :=
  (if nonempty (diff_insert d)
   then [chainSend "insert" (VArr (map VObj (diff_insert d)))] else [])
  ++
  (if nonempty (diff_update d)
   then map (fun u =>
               chainSend "update"
                 (VObj [("query", VObj (set [] pk (get u pk))); ("update", VObj u)]))
            (diff_update d)
   else [])
  ++
  (if nonempty (diff_remove d)
   then [chainSend "remove"
           (VObj [("query",
                   VObj [("$or",
                          VArr (map (fun r => VObj [("_id", get r pk)])
                                    (diff_remove d)))])])]
   else []).

(** The function given to [new ReactorIO(source, this, ...)] in
    View.prototype.from: the packets it sends on with [this.chainSend],
    and the boolean it returns. *)
Definition transform (self : ioContext) (chainPacket : packet)
  : list packet * bool :=
  if negb (io_isDropped self) then
    if truthy (io_query self) then
      if String.eqb (ptype chainPacket) "insert" then
        (transform_insert self (pdata chainPacket), true)
      else if String.eqb (ptype chainPacket) "update" then
        let d := io_diff self (io_query self) (io_options self) in
        if nonempty (diff_insert d) || nonempty (diff_remove d) then
          (update_packets (io_primaryKey self) d, true)
        else ([], false)
      else ([], false)
    else ([], false)
  else ([], false).

(** ** The insert case of View.prototype._chainHandler *)

(** The private collection and the active bucket are defined outside
    View.js; the handler uses them through these operations. *)
Class CollectionOps (C : Type) : Type := {
  (** [_data.length] *)
  data_length : C -> Z;
  (** [_insertHandle(data, index)] *)
  _insertHandle : value -> Z -> C -> C
}.

Class ActiveBucketOps (B : Type) : Type := {
  (** [insert(doc)]: the index, and the bucket after the call *)
  bucket_insert : value -> B -> Z * B
}.

Section ChainHandler.
Context {C B : Type} {collection : CollectionOps C} {bucket : ActiveBucketOps B}.

(** The loop over the items of an ordered insert: the bucket gives the
    index of the item, and [_insertHandle] is called with
    [chainPacket.data] and that index. *)
Fixpoint ordered_insert_loop (data : value) (arr : list value) (st : C * B)
  : C * B :=
  match arr with
  | [] => st
  | item :: rest =>
      let (insertIndex, b') := bucket_insert item (snd st) in
      ordered_insert_loop data rest (_insertHandle data insertIndex (fst st), b')
  end.

(** [case 'insert'] of View.prototype._chainHandler, for a View with the
    query options [options], on its private collection and its active
    bucket. *)
Definition _chainHandler_insert (options : value) (packet_data : value)
    (st : C * B) : C * B :=
  let data := jParse_jStringify packet_data in  (* this.decouple(...) *)
  let data := match data with VArr _ => data | _ => VArr [data] end in
  if truthy options && truthy (prop options "$orderBy") then
    match data with
    | VArr arr => ordered_insert_loop data arr st
    | _ => st
    end
  else
    let insertIndex := data_length (fst st) in
    (_insertHandle data insertIndex (fst st), snd st).

End ChainHandler.

(** ** Views, collections and databases as objects *)

(** Objects are held in a store, and referred to by their address. *)
Definition ref : Type := nat.

(** A View object.  A field that is unset or deleted is [None]. *)
Record ViewObj : Type := MkView {
  _name : string;
  _state : option string;
  _from : option ref;
  _io : option ref;
  _privateData : option ref;
  _publicData : option ref;
  _transformEnabled : bool;
  _db : option ref;
  _querySettings : option (value * value);   (* query, options *)
  _listeners : option object;
  _chain : option (list ref);
  _activeBucket : option value               (* the $orderBy it was built on *)
}.

(** What View.js reads and writes of a Collection: its list of views and
    its database; [coll_logIdentifier] is what [logIdentifier()] returns. *)
Record CollectionObj : Type := MkCollection {
  coll_name : string;
  coll_view : list ref;                      (* _view *)
  coll_db : option ref;                      (* _db *)
  coll_logIdentifier : string
}.

(** What View.js reads and writes of a Db: the registry [_view]. *)
Record DbObj : Type := MkDb { db_view : gmap string ref }.

(** Calls into code outside View.js, in the order they are made. *)
Inductive call : Type :=
| CallOn (target : ref) (event : string) (view : ref)
| CallOff (target : ref) (event : string) (view : ref)
| CallEmit (target : ref) (event : string) (subject : ref)
| CallIoNew (io source sink : ref)
| CallIoDrop (io : ref)
| CallCollectionNew (c : ref) (name : string)
| CallCollectionDrop (c : ref)
| CallCollectionDb (c db : ref)
| CallFind (source : ref) (query options : value)
| CallPrimaryKey (c source : ref)
| CallSetData (c source : ref) (callback : bool)
| CallCallback (err res : bool).

Record World : Type := MkWorld {
  views : gmap ref ViewObj;
  collections : gmap ref CollectionObj;
  dbs : gmap ref DbObj;
  next_ref : ref;
  calls : list call
}.

(** Code that changes the world and returns a value or throws. *)
Definition M (A : Type) : Type := World -> result A * World.

#[global] Instance M_ret : MRet M := fun A a w => (Ok a, w).
#[global] Instance M_bind : MBind M := fun A B f m w =>
  match m w with
  | (Ok a, w') => f a w'
  | (Throw e, w') => (Throw e, w')
  end.

Definition throw {A : Type} (e : error) : M A := fun w => (Throw e, w).

Definition modify (f : World -> World) : M unit := fun w => (Ok tt, f w).

Definition new_ref : M ref := fun w =>
  (Ok (next_ref w),
   MkWorld (views w) (collections w) (dbs w) (S (next_ref w)) (calls w)).

Definition log (c : call) : M unit :=
  modify (fun w =>
    MkWorld (views w) (collections w) (dbs w) (next_ref w) (calls w ++ [c])).

Definition set_views (f : gmap ref ViewObj -> gmap ref ViewObj) : M unit :=
  modify (fun w =>
    MkWorld (f (views w)) (collections w) (dbs w) (next_ref w) (calls w)).

Definition set_collections
    (f : gmap ref CollectionObj -> gmap ref CollectionObj) : M unit :=
  modify (fun w =>
    MkWorld (views w) (f (collections w)) (dbs w) (next_ref w) (calls w)).

Definition set_dbs (f : gmap ref DbObj -> gmap ref DbObj) : M unit :=
  modify (fun w =>
    MkWorld (views w) (collections w) (f (dbs w)) (next_ref w) (calls w)).

(** Reading an object: a method call on something that is not there is a
    TypeError. *)
Definition the_view (v : ref) : M ViewObj := fun w =>
  match views w !! v with Some o => (Ok o, w) | None => (Throw TypeError, w) end.

Definition the_collection (c : ref) : M CollectionObj := fun w =>
  match collections w !! c with Some o => (Ok o, w) | None => (Throw TypeError, w) end.

Definition the_db (d : ref) : M DbObj := fun w =>
  match dbs w !! d with Some o => (Ok o, w) | None => (Throw TypeError, w) end.

Definition defined {A : Type} (o : option A) : M A :=
  match o with Some a => mret a | None => throw TypeError end.

Definition when (b : bool) (m : M unit) : M unit := if b then m else mret tt.

(** Field updates of a View. *)
Definition with_state (s : option string) (o : ViewObj) : ViewObj :=
  MkView (_name o) s (_from o) (_io o) (_privateData o) (_publicData o)
         (_transformEnabled o) (_db o) (_querySettings o) (_listeners o)
         (_chain o) (_activeBucket o).
Definition with_from (f : option ref) (o : ViewObj) : ViewObj :=
  MkView (_name o) (_state o) f (_io o) (_privateData o) (_publicData o)
         (_transformEnabled o) (_db o) (_querySettings o) (_listeners o)
         (_chain o) (_activeBucket o).
Definition with_io (i : option ref) (o : ViewObj) : ViewObj :=
  MkView (_name o) (_state o) (_from o) i (_privateData o) (_publicData o)
         (_transformEnabled o) (_db o) (_querySettings o) (_listeners o)
         (_chain o) (_activeBucket o).
Definition with_privateData (p : option ref) (o : ViewObj) : ViewObj :=
  MkView (_name o) (_state o) (_from o) (_io o) p (_publicData o)
         (_transformEnabled o) (_db o) (_querySettings o) (_listeners o)
         (_chain o) (_activeBucket o).
Definition with_db (d : option ref) (o : ViewObj) : ViewObj :=
  MkView (_name o) (_state o) (_from o) (_io o) (_privateData o) (_publicData o)
         (_transformEnabled o) d (_querySettings o) (_listeners o)
         (_chain o) (_activeBucket o).
Definition with_activeBucket (b : option value) (o : ViewObj) : ViewObj :=
  MkView (_name o) (_state o) (_from o) (_io o) (_privateData o) (_publicData o)
         (_transformEnabled o) (_db o) (_querySettings o) (_listeners o)
         (_chain o) b.

Definition update_view (v : ref) (f : ViewObj -> ViewObj) : M unit :=
  set_views (alter f v).

(** Field updates of a Collection. *)
Definition with_coll_view (l : list ref) (c : CollectionObj) : CollectionObj :=
  MkCollection (coll_name c) l (coll_db c) (coll_logIdentifier c).
Definition with_coll_db (d : option ref) (c : CollectionObj) : CollectionObj :=
  MkCollection (coll_name c) (coll_view c) d (coll_logIdentifier c).

(** Modelled from the spec: isDropped comes from the Common mixin, which
    is not part of these sources; a View is dropped when its state is
    [dropped]. *)
Definition isDropped (o : ViewObj) : bool :=
  match _state o with
  | Some s => String.eqb s "dropped"
  | None => false
  end.

(** View.prototype.publicData *)
Definition publicData (o : ViewObj) : option ref :=
  if _transformEnabled o then _publicData o else _privateData o.

(** [new Collection(name)]: Collection.prototype.init as View.js extends
    it sets [_view] to the empty array; the rest of the constructor is
    outside View.js, and the new collection is taken to identify itself
    in messages by its name. *)
Definition Collection_new (name : string) : M ref :=
  c ← new_ref;
  log (CallCollectionNew c name);;
  set_collections <[c := MkCollection name [] None name]>;;
  mret c.

(** Collection.prototype._addView *)
Definition Collection_addView (c : ref) (view : ref) : M unit :=
  set_collections (alter (fun o => with_coll_view (coll_view o ++ [view]) o) c).

(** [arr.splice(arr.indexOf(x), 1)] when [x] is in [arr]. *)
Fixpoint remove_first (x : ref) (arr : list ref) : list ref :=
  match arr with
  | [] => []
  | y :: rest => if Nat.eqb y x then rest else y :: remove_first x rest
  end.

(** Collection.prototype._removeView *)
Definition Collection_removeView (c : ref) (view : ref) : M unit :=
  set_collections (alter (fun o => with_coll_view (remove_first view (coll_view o)) o) c).

(** View.prototype.init, reached by [new View(name, query, options)].
    It calls [this.query(query, options, false)] before it creates
    [_privateData].  With both arguments undefined, the main body of
    [query] does nothing.  With a defined [query] or [options], it ends
    in [this.emit(...)], and View.prototype.emit reads
    [this._privateData.emit]; the injection of [$from] into [$findSub]
    before that reads [this._privateData.name()], and a read of
    [query.$findSub] on [null] fails too: each of these is a TypeError,
    and the constructor gives no object. *)
Definition View_init (name : string) (query options : value) : M ref :=
  v ← new_ref;
  set_views <[v := MkView name None None None None None false None
                          (Some (VUndef, VUndef)) (Some []) None None]>;;
  match query, options with
  | VUndef, VUndef =>
      pd ← Collection_new (name ++ "_internalPrivate");
      update_view v (with_privateData (Some pd));;
      mret v
  | _, _ => throw TypeError
  end.

(** The [db] setter of a View, for a database [db]. *)
Definition View_db (v : ref) (db : ref) : M ref :=
  o ← the_view v;
  pd ← defined (_privateData o);
  log (CallCollectionDb pd db);;
  set_collections (alter (with_coll_db (Some db)) pd);;
  pub ← defined (publicData o);
  log (CallCollectionDb pub db);;
  set_collections (alter (with_coll_db (Some db)) pub);;
  update_view v (with_db (Some db));;
  mret v.

(** View.prototype.rebuildActiveBucket *)
Definition View_rebuildActiveBucket (v : ref) (orderBy : value) : M unit :=
  if truthy orderBy then
    o ← the_view v;
    _ ← defined (_privateData o);
    update_view v (with_activeBucket (Some orderBy))
  else
    update_view v (with_activeBucket None).

(** The source a View binds to: when it is given a View, the private
    collection of that View, and a dropped View has none, so that the
    call of [on] that follows is made on [undefined]. *)
Definition resolve_source (source : ref) : M ref := fun w =>
  match views w !! source with
  | Some sv =>                              (* source.className === 'View' *)
      match _privateData sv with
      | Some pd => (Ok pd, w)
      | None => (Throw TypeError, w)
      end
  | None => (Ok source, w)
  end.

(** View.prototype.from with a source, which is a Collection or a View
    of the store.  (A source given by name is first looked up with
    [Db.collection], outside View.js.) *)
Definition View_from (v : ref) (source : ref) (callback : bool) : M ref :=
  o ← the_view v;
  match _from o with
  | Some f => log (CallOff f "drop" v);; update_view v (with_from None)
  | None => mret tt
  end;;
  match _io o with
  | Some io => log (CallIoDrop io);; update_view v (with_io None)
  | None => mret tt
  end;;
  source ← resolve_source source;
  update_view v (with_from (Some source));;
  log (CallOn source "drop" v);;
  io ← new_ref;
  log (CallIoNew io source v);;
  update_view v (with_io (Some io));;
  qs ← defined (_querySettings o);
  log (CallFind source (fst qs) (snd qs));;
  pd ← defined (_privateData o);
  log (CallPrimaryKey pd source);;
  log (CallSetData pd source callback);;
  (if truthy (snd qs) && truthy (prop (snd qs) "$orderBy")
   then View_rebuildActiveBucket v (prop (snd qs) "$orderBy")
   else View_rebuildActiveBucket v VUndef);;
  mret v.

(** View.prototype._collectionDropped *)
Definition View_collectionDropped (v : ref) (collection : option ref) : M unit :=
  match collection with
  | Some _ => update_view v (with_from None)
  | None => mret tt
  end.

(** What [drop] deletes at its end. *)
Definition released (o : ViewObj) : ViewObj :=
  MkView (_name o) (_state o) None None None (_publicData o)
         (_transformEnabled o) None None None None (_activeBucket o).

(** View.prototype.drop; [callback] tells whether a callback is given. *)
Definition View_drop (v : ref) (callback : bool) : M bool :=
  o ← the_view v;
  if negb (isDropped o) then
    match _from o with
    | Some f => log (CallOff f "drop" v);; Collection_removeView f v
    | None => mret tt
    end;;
    update_view v (with_state (Some "dropped"));;
    match _io o with
    | Some io => log (CallIoDrop io)
    | None => mret tt
    end;;
    match _privateData o with
    | Some pd => log (CallCollectionDrop pd)
    | None => mret tt
    end;;
    match _publicData o with
    | Some pub =>
        when (negb (bool_decide (_privateData o = Some pub)))
             (log (CallCollectionDrop pub))
    | None => mret tt
    end;;
    match _db o with
    | Some d =>
        when (negb (String.eqb (_name o) EmptyString))
             (set_dbs (alter (fun db => MkDb (delete (_name o) (db_view db))) d))
    | None => mret tt
    end;;
    pd ← defined (_privateData o);          (* this.emit is _privateData.emit *)
    log (CallEmit pd "drop" v);;
    when callback (log (CallCallback false true));;
    update_view v released;;
    mret true
  else mret false.

(** The calls a first [drop] makes, in order: it unsubscribes from the
    source, drops the ReactorIO, drops the private collection, drops the
    public collection when that is another one, emits [drop], and calls
    the callback with [(false, true)]. *)
Definition drop_calls (v : ref) (o : ViewObj) (callback : bool) : list call :=
  match _from o with Some f => [CallOff f "drop" v] | None => [] end ++
  match _io o with Some io => [CallIoDrop io] | None => [] end ++
  match _privateData o with Some pd => [CallCollectionDrop pd] | None => [] end ++
  match _publicData o with
  | Some pub =>
      if bool_decide (_privateData o = Some pub) then []
      else [CallCollectionDrop pub]
  | None => []
  end ++
  match _privateData o with Some pd => [CallEmit pd "drop" v] | None => [] end ++
  (if callback then [CallCallback false true] else []).

(** The world after a first [drop] of the View [v], which was [o]. *)
Definition dropped_world (v : ref) (o : ViewObj) (callback : bool) (w : World)
  : World :=
  MkWorld
    (alter released v (alter (with_state (Some "dropped")) v (views w)))
    (match _from o with
     | Some f =>
         alter (fun c => with_coll_view (remove_first v (coll_view c)) c) f
               (collections w)
     | None => collections w
     end)
    (match _db o with
     | Some d =>
         if negb (String.eqb (_name o) EmptyString)
         then alter (fun db => MkDb (delete (_name o) (db_view db))) d (dbs w)
         else dbs w
     | None => dbs w
     end)
    (next_ref w)
    (calls w ++ drop_calls v o callback).

(** Collection.prototype.view: [None] is the [undefined] it returns when
    the collection has no database. *)
Definition Collection_view (c : ref) (name : string) (query options : value)
  : M (option ref) :=
  co ← the_collection c;
  match coll_db co with
  | Some d =>
      db ← the_db d;
      match db_view db !! name with
      | None =>
          view ← View_init name query options;
          _ ← View_db view d;
          _ ← View_from view c false;
          Collection_addView c view;;
          mret (Some view)
      | Some _ =>
          throw (Thrown (coll_logIdentifier co ++
            " Cannot create a view using this collection because a view with this name already exists: "
            ++ name))
      end
  | None => mret None
  end.

(** Db.prototype.view, for a name. *)
Definition Db_view (d : ref) (viewName : string) : M ref :=
  db ← the_db d;
  match db_view db !! viewName with
  | Some view => mret view
  | None =>
      view ← View_init viewName VUndef VUndef;
      _ ← View_db view d;
      set_dbs (alter (fun o => MkDb (<[viewName := view]> (db_view o))) d);;
      log (CallEmit d "create" view);;
      mret view
  end.

(** Db.prototype.viewExists *)
Definition Db_viewExists (d : ref) (viewName : string) (w : World) : result bool :=
  match dbs w !! d with
  | Some db => Ok (bool_decide (is_Some (db_view db !! viewName)))
  | None => Throw TypeError
  end.

(** Code that leaves every collection, and so every list [_view], as it
    is. *)
Definition keeps_collections {A : Type} (m : M A) : Prop :=
  forall w, collections (snd (m w)) = collections w.

(** ** Worlds for the examples *)

(** A collection [people] at address 0, attached to no database. *)
Definition world_collection : World :=
  MkWorld ∅ {[0%nat := MkCollection "people" [] None "people"]} ∅ 1%nat [].

(** [new View('v').from(people)] *)
Definition bind_new_view : M ref :=
  v ← View_init "v" VUndef VUndef; View_from v 0%nat false.

(** A database at address 0 with an empty registry, and a collection
    [people] at address 1 attached to it. *)
Definition world_db_collection : World :=
  MkWorld ∅ {[1%nat := MkCollection "people" [] (Some 0%nat) "people"]}
          {[0%nat := MkDb ∅]} 2%nat [].

(** A View [v] at address 2, bound to [people], with its private
    collection at 3 and its ReactorIO at 4, registered under its name. *)
Definition view_v : ViewObj :=
  MkView "v" None (Some 1%nat) (Some 4%nat) (Some 3%nat) None false
         (Some 0%nat) (Some (VUndef, VUndef)) (Some []) None None.

Definition world_view : World :=
  MkWorld
    {[2%nat := view_v]}
    {[1%nat := MkCollection "people" [2%nat] (Some 0%nat) "people";
      3%nat := MkCollection "v_internalPrivate" [] (Some 0%nat) "v_internalPrivate"]}
    {[0%nat := MkDb {["v" := 2%nat]}]}
    5%nat [].

(** ** Stand-ins for the collaborators *)

Section StandIns.
Context {host : Host}.

(** A value read as a document: only an object has fields. *)
Definition as_doc (v : value) : doc :=
  match v with VObj o => o | _ => [] end.

(** The position at which [place] puts a document. *)
Fixpoint place_index (index : list indexField) (x : doc) (l : list doc) : Z :=
  match l with
  | [] => 0
  | y :: rest =>
      if compareIndex index x y =? -1 then 0
      else 1 + place_index index x rest
  end.

(** Modelled from the spec: ActiveBucket is not part of these sources.
    [insert(doc)] returns the index at which the document should be
    placed so that the maintained sequence remains sorted under the
    index, records the document as placed, and breaks ties by insertion
    order.  The bucket is its index and the sequence it maintains. *)
Definition specBucket : ActiveBucketOps (list indexField * list doc) :=
  {| bucket_insert := fun item b =>
       (place_index (fst b) (as_doc item) (snd b),
        (fst b, place (fst b) (as_doc item) (snd b))) |}.

End StandIns.

(** [arr.splice(i, 0, ...items)] *)
Definition splice {A : Type} (i : Z) (items : list A) (arr : list A) : list A :=
  take (Z.to_nat i) arr ++ items ++ drop (Z.to_nat i) arr.

(** Modelled from the spec: Collection._insertHandle is not part of
    these sources; the spec takes it to splice what it is given into
    [_data] at the index.  The collection is its [_data]. *)
Definition specCollection : CollectionOps (list value) :=
  {| data_length := fun c => Z.of_nat (length c);
     _insertHandle := fun data index c =>
       match data with
       | VArr items => splice index items c
       | _ => splice index [data] c
       end |}.

(** A host for the examples: strings collate by code units, a string
    of decimal digits is the number it writes, and an object prints as
    [[object Object]]. *)
Definition digit_of (c : Ascii.ascii) : option Z :=
  let n := Z.of_nat (Ascii.nat_of_ascii c) in
  if (48 <=? n) && (n <=? 57) then Some (n - 48) else None.

Fixpoint digits (s : string) (acc : Z) : option Z :=
  match s with
  | EmptyString => Some acc
  | String c rest =>
      match digit_of c with
      | Some d => digits rest (10 * acc + d)
      | None => None
      end
  end.

Definition plainHost : Host :=
  {| localeCompare := fun a b =>
       match String.compare a b with Lt => -1 | Eq => 0 | Gt => 1 end;
     StringToNumber := fun s => digits s 0;
     ObjectToString := fun _ => "[object Object]" |}.

(** ** What a lookup selects *)

Section LookupSelection.
Context {host : Host}.

Definition is_undefined (v : value) : bool :=
  match v with VUndef => true | _ => false end.

(** The documents a lookup keeps, read off BinaryTree.prototype.lookup
    level by level.  At a level whose field the query holds a truthy
    value for, the document must compare equal to the query; the field
    is then deleted from the query, and the next level is consulted only
    when the query still holds something other than [undefined] for its
    field.  At a level the query does not constrain, the next level is
    consulted with the query as it is. *)
Fixpoint selects (index : list indexField) (query : object) (d : doc) : bool :=
  match index with
  | [] => true
  | f :: rest =>
      if truthy (get query (key f)) then
        (_compareFunc index query d =? 0) &&
        match rest with
        | [] => true
        | g :: _ =>
            if is_undefined (get (del query (key f)) (key g)) then true
            else selects rest (del query (key f)) d
        end
      else selects rest query d
  end.

(** At every level where the query is compared with documents, the
    comparator is a total preorder on the query and the documents of
    [D]. *)
Fixpoint lookup_total (index : list indexField) (query : object) (D : list doc)
  : Prop :=
  match index with
  | [] => True
  | f :: rest =>
      if truthy (get query (key f)) then
        level_total index (query :: D) /\ lookup_total rest (del query (key f)) D
      else lookup_total rest query D
  end.

(** Every value the query holds is a number. *)
Definition numeric_query (query : object) : Prop :=
  Forall (fun kv => exists n, snd kv = VNum n) query.

(** Every level of the index is ascending or descending. *)
Definition directed (index : list indexField) : Prop :=
  Forall (fun f => val f = VNum 1 \/ val f = VNum (-1)) index.

(** The document holds, at every field of the index, the number the
    query holds there. *)
Definition agrees (index : list indexField) (query : object) (d : doc) : bool :=
  forallb (fun f =>
             match get query (key f), get d (key f) with
             | VNum n, VNum m => n =? m
             | _, _ => false
             end) index.

End LookupSelection.

Section LookupShape.
Context {host : Host}.

(** What [lookup] does on a node of the shape [wf], whose documents lie
    in [D]. *)
Definition lookup_ok (t : BinaryTree) : Prop :=
  wf t -> data_of t <> None -> index_of t <> [] ->
  forall (D : list doc) (q : object),
    Forall (fun y => y ∈ D) (inOrder t []) ->
    lookup_total (index_of t) q D ->
    lookup t q = Ok (List.filter (selects (index_of t) q) (inOrder t [])).

End LookupShape.

(** ** Documents for the examples *)

(** An index ascending on [a], then on [b], and on [a], [b] and [c]. *)
Definition index_ab : list indexField :=
  [IndexField "a" (VNum 1); IndexField "b" (VNum 1)].

Definition index_abc : list indexField :=
  [IndexField "a" (VNum 1); IndexField "b" (VNum 1); IndexField "c" (VNum 1)].

Definition doc_abc (a b c : Z) : doc :=
  [("a", VNum a); ("b", VNum b); ("c", VNum c)].

Definition docs_abc : list doc :=
  [doc_abc 1 2 3; doc_abc 2 1 3; doc_abc 1 1 4].

(** ** GeoHash: adjacent cells *)

Module GeoHash.

(** The constants of GeoHash.js. *)
Definition bits : list Z := [16; 8; 4; 2; 1].

Definition base32 : string := "0123456789bcdefghjkmnpqrstuvwxyz".

(** The four values [dir] takes. *)
Inductive direction : Type := Right | Left | Top | Bottom.

Definition neighbors_even (dir : direction) : string :=
  match dir with
  | Right => "bc01fg45238967deuvhjyznpkmstqrwx"
  | Left => "238967debc01fg45kmstqrwxuvhjyznp"
  | Top => "p0r21436x8zb9dcf5h7kjnmqesgutwvy"
  | Bottom => "14365h7k9dcfesgujnmqp0r2twvyx8zb"
  end.

Definition borders_even (dir : direction) : string :=
  match dir with
  | Right => "bcfguvyz"
  | Left => "0145hjnp"
  | Top => "prxz"
  | Bottom => "028b"
  end.

(** [neighbors[dir][type]] and [borders[dir][type]]; the [odd] tables are
    the [even] tables of another direction. *)
Definition neighbors (dir : direction) (odd : bool) : string :=
  if odd then
    match dir with
    | Bottom => neighbors_even Left
    | Top => neighbors_even Right
    | Left => neighbors_even Bottom
    | Right => neighbors_even Top
    end
  else neighbors_even dir.

Definition borders (dir : direction) (odd : bool) : string :=
  if odd then
    match dir with
    | Bottom => borders_even Left
    | Top => borders_even Right
    | Left => borders_even Bottom
    | Right => borders_even Top
    end
  else borders_even dir.

(** [s.indexOf(c)] for a character [c]; [None] is -1. *)
Fixpoint indexOf (s : string) (c : Ascii.ascii) : option nat :=
  match s with
  | EmptyString => None
  | String c' rest =>
      if Ascii.eqb c' c then Some 0%nat else option_map S (indexOf rest c)
  end.

(** [toLowerCase] on a character; strings here are ASCII. *)
Definition lower (c : Ascii.ascii) : Ascii.ascii :=
  let n := Ascii.nat_of_ascii c in
  if (65 <=? n)%nat && (n <=? 90)%nat then Ascii.ascii_of_nat (n + 32) else c.

(** A call returns a value, or never returns: it calls itself without
    end, until the engine gives up on the depth of the stack. *)
Inductive outcome (A : Type) : Type :=
| Returns (a : A)
| Overflows.
Arguments Returns {A} a.
Arguments Overflows {A}.

Definition undefined_text : list Ascii.ascii := list_ascii_of_string "undefined".

(** GeoHash.prototype.calculateAdjacent, on the characters of [srcHash]
    from the last one to the first one; the result is in that order too.
    [toLowerCase] works character by character, so that the last
    character and the base are lowered here where they are used.  On the
    empty string, [charAt(-1)] is the empty string, which [indexOf] finds
    at 0 in every string: the function calls itself on the empty base,
    and so without end. *)
Fixpoint adjacent_rev (rsrc : list Ascii.ascii) (dir : direction)
  : outcome (list Ascii.ascii) :=
  match rsrc with
  | [] => Overflows
  | c :: rbase =>
      let lastChr := lower c in
      let type := Nat.odd (length rsrc) in
      let base :=
        match indexOf (borders dir type) lastChr with
        | Some _ => adjacent_rev rbase dir
        | None => Returns (map lower rbase)
        end in
      match base with
      | Overflows => Overflows
      | Returns rb =>
          match indexOf (neighbors dir type) lastChr with
          | Some i =>
              match String.get i base32 with
              | Some ch => Returns (ch :: rb)
              | None => Returns (rev undefined_text ++ rb)
              end
          | None => Returns (rev undefined_text ++ rb)
          end
      end
  end.

(** GeoHash.prototype.calculateAdjacent *)
Definition calculateAdjacent (srcHash : string) (dir : direction) : outcome string :=
  match adjacent_rev (rev (list_ascii_of_string srcHash)) dir with
  | Returns r => Returns (string_of_list_ascii (rev r))
  | Overflows => Overflows
  end.

Definition then_adjacent (o : outcome string) (dir : direction) : outcome string :=
  match o with
  | Returns h => calculateAdjacent h dir
  | Overflows => Overflows
  end.

(** What calculateNeighbours returns: an object with nine fields, or an
    array of nine hashes. *)
Inductive neighbours : Type :=
| AsObject (center left_ right_ top bottom topLeft topRight bottomLeft bottomRight : string)
| AsArray (hashes : list string).

(** GeoHash.prototype.calculateNeighbours *)
Definition calculateNeighbours (centerHash : string) (options : value)
  : outcome neighbours :=
  let adj := calculateAdjacent in
  match adj centerHash Left with Overflows => Overflows | Returns l =>
  match adj centerHash Right with Overflows => Overflows | Returns r =>
  match adj centerHash Top with Overflows => Overflows | Returns t =>
  match adj centerHash Bottom with Overflows => Overflows | Returns b =>
  match adj l Top with Overflows => Overflows | Returns tl =>
  match adj r Top with Overflows => Overflows | Returns tr =>
  match adj l Bottom with Overflows => Overflows | Returns bl =>
  match adj r Bottom with Overflows => Overflows | Returns br =>
    if negb (truthy options) ||
       match prop options "type" with
       | VStr s => String.eqb s "object"
       | _ => false
       end
    then Returns (AsObject centerHash l r t b tl tr bl br)
    else Returns (AsArray [tl; t; tr; l; centerHash; r; bl; b; br])
  end end end end end end end end.

(** The cell of a hash in the grid of its length: its column [x] among
    [w] columns, counted from the west, and its row [y] among [h] rows,
    counted from the south.  The bits of the characters are read as
    GeoHash.prototype.decode reads them: from the mask 16 down to the
    mask 1, for the longitude and the latitude in turn, a set bit
    choosing the upper half. *)
Record cell : Type := Cell { x : Z; w : Z; y : Z; h : Z }.

Definition refine (cd mask : Z) (isEven : bool) (c : cell) : cell :=
  let bit := if Z.land cd mask =? 0 then 0 else 1 in
  if isEven then Cell (2 * x c + bit) (2 * w c) (y c) (h c)
  else Cell (x c) (w c) (2 * y c + bit) (2 * h c).

Definition char_code (ch : Ascii.ascii) : Z :=
  match indexOf base32 ch with
  | Some i => Z.of_nat i
  | None => -1
  end.

Fixpoint refine_char (cd : Z) (masks : list Z) (isEven : bool) (c : cell)
  : bool * cell :=
  match masks with
  | [] => (isEven, c)
  | mask :: rest => refine_char cd rest (negb isEven) (refine cd mask isEven c)
  end.

Fixpoint cell_from (chars : list Ascii.ascii) (isEven : bool) (c : cell) : cell :=
  match chars with
  | [] => c
  | ch :: rest =>
      let (isEven', c') := refine_char (char_code ch) bits isEven c in
      cell_from rest isEven' c'
  end.

Definition cell_of (hash : string) : cell :=
  cell_from (list_ascii_of_string hash) true (Cell 0 1 0 1).

(** The hash is written in the geohash alphabet. *)
Definition valid (hash : string) : Prop :=
  Forall (fun ch => indexOf base32 ch <> None) (list_ascii_of_string hash).

(** The direction back. *)
Definition opposite (dir : direction) : direction :=
  match dir with
  | Right => Left
  | Left => Right
  | Top => Bottom
  | Bottom => Top
  end.

(** The cell one step away, and whether a cell lies on the edge of the
    grid in a direction. *)
Definition step (dir : direction) (c : cell) : cell :=
  match dir with
  | Right => Cell (x c + 1) (w c) (y c) (h c)
  | Left => Cell (x c - 1) (w c) (y c) (h c)
  | Top => Cell (x c) (w c) (y c + 1) (h c)
  | Bottom => Cell (x c) (w c) (y c - 1) (h c)
  end.

Definition on_edge (dir : direction) (c : cell) : Prop :=
  match dir with
  | Right => x c = w c - 1
  | Left => x c = 0
  | Top => y c = h c - 1
  | Bottom => y c = 0
  end.

End GeoHash.

(** * Properties *)

(** ** The comparator and undefined fields *)

Section CompareFacts.
Context {host : Host}.

Lemma js_lt_undefined_l (b : value) : js_lt VUndef b = false.
Proof. unfold js_lt. simpl. destruct (ToPrimitive b); reflexivity. Qed.

Lemma js_lt_undefined_r (a : value) : js_lt a VUndef = false.
Proof.
  unfold js_lt. simpl.
  destruct (ToPrimitive a) as [| |b|n|s|l|o]; simpl; try reflexivity.
  destruct (StringToNumber s); reflexivity.
Qed.

Lemma sortAsc_undefined (v : value) :
  sortAsc VUndef v = 0 /\ sortAsc v VUndef = 0.
Proof.
  unfold sortAsc, js_gt. split.
  - rewrite js_lt_undefined_l, js_lt_undefined_r. reflexivity.
  - destruct v; rewrite ?js_lt_undefined_l, ?js_lt_undefined_r; reflexivity.
Qed.

Lemma sortDesc_undefined (v : value) :
  sortDesc VUndef v = 0 /\ sortDesc v VUndef = 0.
Proof.
  unfold sortDesc, js_gt. split.
  - rewrite js_lt_undefined_l, js_lt_undefined_r. reflexivity.
  - destruct v; rewrite ?js_lt_undefined_l, ?js_lt_undefined_r; reflexivity.
Qed.

(** C9, as the code has it: a document whose indexed field is undefined
    compares equal, with result 0, to every document, whichever side it
    is on and whatever the direction of the level. *)
Theorem compareFunc_undefined_equal (f : indexField) (rest : list indexField)
    (a b : doc) :
  get a (key f) = VUndef ->
  _compareFunc (f :: rest) a b = 0 /\ _compareFunc (f :: rest) b a = 0.
Proof.
  intros Ha. unfold _compareFunc. rewrite Ha.
  destruct (is_num (val f) 1); [split; apply sortAsc_undefined|].
  destruct (is_num (val f) (-1)); [split; apply sortDesc_undefined|].
  split; reflexivity.
Qed.

End CompareFacts.

(** C9 at a concrete input: ascending on [a], the document without [a]
    against the document with [a = 5], and the other way round under a
    descending level. *)
Lemma compareFunc_undefined_equal_witness :
  get [("b", VNum 1)] "a" = VUndef /\
  _compareFunc (host := plainHost) [IndexField "a" (VNum 1)]
               [("b", VNum 1)] [("a", VNum 5)] = 0 /\
  _compareFunc (host := plainHost) [IndexField "a" (VNum 1)]
               [("a", VNum 5)] [("b", VNum 1)] = 0.
Proof.
  split; [reflexivity|].
  apply (compareFunc_undefined_equal (host := plainHost)
           (IndexField "a" (VNum 1)) [] [("b", VNum 1)] [("a", VNum 5)]).
  reflexivity.
Defined.

(** C9 as stated fails: ascending on [a], a document whose [a] is
    undefined does not compare less than one whose [a] is 5, and under a
    descending level it does not compare greater. *)
Lemma undefined_not_less_than_defined :
  _compareFunc (host := plainHost) [IndexField "a" (VNum 1)]
               [("b", VNum 1)] [("a", VNum 5)] <> -1 /\
  _compareFunc (host := plainHost) [IndexField "a" (VNum (-1))]
               [("b", VNum 1)] [("a", VNum 5)] <> 1.
Proof. split; vm_compute; discriminate. Qed.

(** ** What insert returns, and the result of a batch *)

Section InsertFacts.
Context {host : Host}.

(** On a node that has its data, [insert] returns [undefined], wherever
    the document goes. *)
Lemma insert_returns_undefined (t : BinaryTree) (v : doc) :
  data_of t <> None -> snd (insert t v) = RUndefined.
Proof.
  destruct t as [s i [d|] l m r]; [intros _|intros Hd; contradiction Hd; reflexivity].
  simpl. destruct (_ =? -1); [destruct l; reflexivity|].
  destruct (_ =? 0); [reflexivity|].
  destruct (_ =? 1); [destruct r; reflexivity|reflexivity].
Qed.

(** [insert] leaves a node with data. *)
Lemma insert_has_data (t : BinaryTree) (v : doc) :
  data_of (fst (insert t v)) <> None.
Proof.
  destruct t as [s i [d|] l m r]; simpl.
  - destruct (_ =? -1); [destruct l; simpl; congruence|].
    destruct (_ =? 0).
    { destruct m as [m|]; [destruct (insert m v)|destruct (tail i)];
        simpl; congruence. }
    destruct (_ =? 1); [destruct r; simpl; congruence|simpl; congruence].
  - destruct m as [m|]; [destruct (insert m v)|destruct (tail i)];
      simpl; congruence.
Qed.

Lemma insert_loop_all_failed (vals : list doc) :
  forall t ins fl, data_of t <> None ->
    snd (insert_loop t vals ins fl) = BatchResult ins (fl ++ vals).
Proof.
  induction vals as [|v rest IH]; intros t ins fl Hd; simpl.
  - rewrite app_nil_r. reflexivity.
  - pose proof (insert_returns_undefined t v Hd) as Hr.
    pose proof (insert_has_data t v) as Hd'.
    destruct (insert t v) as [t' r]. simpl in *. subst r. simpl.
    rewrite IH by exact Hd'. rewrite <- app_assoc. reflexivity.
Qed.

(** A batch into a tree that already holds a document reports every
    document as failed. *)
Lemma insert_array_all_failed (t : BinaryTree) (vals : list doc) :
  data_of t <> None -> snd (insert_array t vals) = BatchResult [] vals.
Proof. intros Hd. apply (insert_loop_all_failed vals t [] [] Hd). Qed.

(** A batch into an empty tree reports the first document as inserted
    and every other one as failed. *)
Lemma insert_array_first_only (index : list indexField) (v : doc) (vals : list doc) :
  snd (insert_array (emptyTree index) (v :: vals)) = BatchResult [v] vals.
Proof.
  unfold insert_array. cbn [insert_loop].
  pose proof (insert_has_data (emptyTree index) v) as Hd.
  destruct (insert (emptyTree index) v) as [t' r] eqn:E.
  assert (r = RTrue) as -> by (unfold emptyTree in E; simpl in E; congruence).
  simpl. apply (insert_loop_all_failed vals t' [v] [] Hd).
Qed.

(** The tree a batch builds is the tree the single inserts build. *)
Lemma insert_loop_tree (vals : list doc) :
  forall t ins fl, fst (insert_loop t vals ins fl) = insert_all t vals.
Proof.
  induction vals as [|v rest IH]; intros t ins fl; simpl; [reflexivity|].
  destruct (insert t v) as [t' r]. simpl.
  destruct (returned_truthy r); apply IH.
Qed.

Lemma insert_array_tree (t : BinaryTree) (vals : list doc) :
  fst (insert_array t vals) = insert_all t vals.
Proof. apply insert_loop_tree. Qed.

End InsertFacts.

(** C3 on the code: the batch [{a: 1}, {a: 2}] into an empty tree indexed
    on [a] places both documents, as the traversal shows, and yet
    reports the second one as failed. *)
Theorem insert_array_reports_placed_document_failed :
  let index := [IndexField "a" (VNum 1)] in
  let d1 := [("a", VNum 1)] in
  let d2 := [("a", VNum 2)] in
  let out := insert_array (host := plainHost) (emptyTree index) [d1; d2] in
  snd out = BatchResult [d1] [d2] /\
  inOrder (fst out) [] = [d1; d2].
Proof. split; vm_compute; reflexivity. Qed.

(** ** Lookup with a falsy value in the query *)

Section LookupFacts.
Context {host : Host}.

(** C10: when the query holds 0, the empty string, false or null at the
    field of the level, [lookup] does not compare the query with the data
    of the node; it gathers from the left node, the middle node or the
    store, and the right node. *)
Theorem lookup_falsy_gathers (t : BinaryTree) (f : indexField)
    (rest : list indexField) (query : object) :
  index_of t = f :: rest ->
  get query (key f) = VNum 0 \/ get query (key f) = VStr EmptyString \/
  get query (key f) = VBool false \/ get query (key f) = VNull ->
  lookup t query = gather t query.
Proof.
  intros Hi Hv. destruct t as [s i d l m r]. simpl in Hi. subst i.
  unfold gather. cbn [lookup left_of middle_of right_of store_of].
  assert (truthy (get query (key f)) = false) as ->
    by (destruct Hv as [->|[->|[->| ->]]]; reflexivity).
  reflexivity.
Qed.

End LookupFacts.

(** C10 at a concrete input: the query [{a: 0}] on the tree of [{a: 1}],
    [{a: 0}] and [{a: 2}] gathers all three documents. *)
Lemma lookup_falsy_gathers_witness :
  let f := IndexField "a" (VNum 1) in
  let t := insert_all (host := plainHost) (emptyTree [f])
             [[("a", VNum 1)]; [("a", VNum 0)]; [("a", VNum 2)]] in
  let query := [("a", VNum 0)] in
  index_of t = [f] /\
  get query (key f) = VNum 0 /\
  lookup (host := plainHost) t query = gather (host := plainHost) t query /\
  gather (host := plainHost) t query
    = Ok [[("a", VNum 0)]; [("a", VNum 1)]; [("a", VNum 2)]].
Proof.
  cbv zeta. split; [reflexivity|]. split; [reflexivity|]. split.
  - apply (lookup_falsy_gathers (host := plainHost) _ (IndexField "a" (VNum 1)) []).
    + reflexivity.
    + left. reflexivity.
  - vm_compute. reflexivity.
Defined.

(** ** The traversal of a tree is the stable sort of what was inserted *)

Section OrderFacts.
Context {host : Host}.

(** *** One level *)

Lemma level_total_nil (D : list doc) : level_total [] D.
Proof. split; intros; simpl; lia. Qed.

Lemma index_total_level (index : list indexField) (D : list doc) :
  index_total index D -> level_total index D.
Proof. destruct index; [intros _; apply level_total_nil|intros [Hl _]; exact Hl]. Qed.

Lemma index_total_tail (index : list indexField) (D : list doc) :
  index_total index D -> index_total (tail index) D.
Proof. destruct index; [trivial|intros [_ Ht]; exact Ht]. Qed.

Lemma index_total_subset (index : list indexField) (D D' : list doc) :
  (forall x, x ∈ D' -> x ∈ D) -> index_total index D -> index_total index D'.
Proof.
  intros Hsub. induction index as [|f rest IH]; [trivial|].
  intros [[Ha Ht] Hr]. split; [|apply IH; exact Hr].
  split.
  - intros a b Ha' Hb'. apply Ha; apply Hsub; assumption.
  - intros a b c Ha' Hb' Hc'. apply Ht; apply Hsub; assumption.
Qed.

Section Level.
Variables (index : list indexField) (D : list doc).
Hypothesis Hlevel : level_total index D.

Lemma level_range (a b : doc) :
  a ∈ D -> b ∈ D -> -1 <= _compareFunc index a b <= 1.
Proof. intros Ha Hb. apply Hlevel; assumption. Qed.

Lemma level_swap (a b : doc) :
  a ∈ D -> b ∈ D -> _compareFunc index b a = - _compareFunc index a b.
Proof. intros Ha Hb. apply Hlevel; assumption. Qed.

Lemma level_refl (a : doc) : a ∈ D -> _compareFunc index a a = 0.
Proof. intros Ha. pose proof (level_swap a a Ha Ha). lia. Qed.

Lemma level_lt (a b d : doc) :
  a ∈ D -> b ∈ D -> d ∈ D ->
  _compareFunc index a d < _compareFunc index b d ->
  _compareFunc index a b = -1.
Proof.
  intros Ha Hb Hd Hlt. destruct Hlevel as [_ Ht].
  pose proof (level_swap a b Ha Hb). pose proof (level_swap a d Ha Hd).
  pose proof (level_swap b d Hb Hd).
  pose proof (level_range a b Ha Hb). pose proof (level_range a d Ha Hd).
  pose proof (level_range b d Hb Hd).
  pose proof (Ht d b a Hd Hb Ha). pose proof (Ht b a d Hb Ha Hd).
  lia.
Qed.

Lemma level_gt (a b d : doc) :
  a ∈ D -> b ∈ D -> d ∈ D ->
  _compareFunc index b d < _compareFunc index a d ->
  _compareFunc index a b = 1.
Proof.
  intros Ha Hb Hd Hlt.
  pose proof (level_lt b a d Hb Ha Hd Hlt). pose proof (level_swap b a Hb Ha).
  lia.
Qed.

Lemma level_eq (a b d : doc) :
  a ∈ D -> b ∈ D -> d ∈ D ->
  _compareFunc index a d = 0 -> _compareFunc index b d = 0 ->
  _compareFunc index a b = 0.
Proof.
  intros Ha Hb Hd Hx Hy. destruct Hlevel as [_ Ht].
  pose proof (level_swap a b Ha Hb). pose proof (level_swap a d Ha Hd).
  pose proof (level_swap b d Hb Hd). pose proof (level_range a b Ha Hb).
  pose proof (Ht a d b Ha Hd Hb). pose proof (Ht b d a Hb Hd Ha).
  lia.
Qed.

End Level.

(** *** The compound comparator *)

Lemma compareIndex_level (index : list indexField) (a b : doc) :
  _compareFunc index a b <> 0 -> compareIndex index a b = _compareFunc index a b.
Proof.
  destruct index as [|f rest]; [intros []; reflexivity|].
  intros Hc. cbn [compareIndex].
  destruct (Z.eqb_spec (_compareFunc (f :: rest) a b) 0); [contradiction|].
  reflexivity.
Qed.

Lemma compareIndex_tail (index : list indexField) (a b : doc) :
  _compareFunc index a b = 0 -> compareIndex index a b = compareIndex (tail index) a b.
Proof.
  destruct index as [|f rest]; [reflexivity|].
  intros Hc. cbn [compareIndex tail]. rewrite Hc. reflexivity.
Qed.

Lemma compareIndex_swap (index : list indexField) (D : list doc) (a b : doc) :
  index_total index D -> a ∈ D -> b ∈ D ->
  compareIndex index b a = - compareIndex index a b.
Proof.
  induction index as [|f rest IH]; intros Ht Ha Hb; [reflexivity|].
  destruct Ht as [Hl Hr]. pose proof (level_swap _ _ Hl a b Ha Hb) as Hs.
  cbn [compareIndex]. rewrite Hs.
  destruct (Z.eqb_spec (_compareFunc (f :: rest) a b) 0) as [E|E].
  - rewrite E. apply IH; assumption.
  - destruct (Z.eqb_spec (- _compareFunc (f :: rest) a b) 0); [lia|reflexivity].
Qed.

Lemma compareIndex_range (index : list indexField) (D : list doc) (a b : doc) :
  index_total index D -> a ∈ D -> b ∈ D -> -1 <= compareIndex index a b <= 1.
Proof.
  induction index as [|f rest IH]; intros Ht Ha Hb; [simpl; lia|].
  destruct Ht as [Hl Hr]. cbn [compareIndex].
  destruct (_ =? 0); [apply IH; assumption|apply (level_range _ _ Hl); assumption].
Qed.

Lemma compareIndex_trans (index : list indexField) (D : list doc) (a b c : doc) :
  index_total index D -> a ∈ D -> b ∈ D -> c ∈ D ->
  compareIndex index a b <= 0 -> compareIndex index b c <= 0 ->
  compareIndex index a c <= 0.
Proof.
  induction index as [|f rest IH]; intros Ht Ha Hb Hc; [simpl; lia|].
  destruct Ht as [Hl Hr]. cbn [compareIndex].
  pose proof (level_range _ _ Hl a b Ha Hb). pose proof (level_range _ _ Hl b c Hb Hc).
  pose proof (level_swap _ _ Hl b c Hb Hc) as Hcb.
  destruct (Z.eqb_spec (_compareFunc (f :: rest) a b) 0) as [Eab|Eab];
    destruct (Z.eqb_spec (_compareFunc (f :: rest) b c) 0) as [Ebc|Ebc]; intros Hab Hbc.
  - rewrite (level_eq _ _ Hl a c b) by (assumption || lia). apply IH; assumption.
  - rewrite (level_lt _ _ Hl a c b) by (assumption || lia). cbn. lia.
  - rewrite (level_lt _ _ Hl a c b) by (assumption || lia). cbn. lia.
  - rewrite (level_lt _ _ Hl a c b) by (assumption || lia). cbn. lia.
Qed.

(** *** Placing a document *)

Lemma place_perm (index : list indexField) (x : doc) (l : list doc) :
  place index x l ≡ₚ x :: l.
Proof.
  induction l as [|y rest IH]; simpl; [reflexivity|].
  destruct (_ =? -1); [reflexivity|].
  rewrite IH. apply perm_swap.
Qed.

Lemma place_app_stop (index : list indexField) (x m : doc) (l1 l2 : list doc) :
  compareIndex index x m = -1 ->
  place index x (l1 ++ m :: l2) = place index x l1 ++ m :: l2.
Proof.
  intros Hm. induction l1 as [|y rest IH]; simpl.
  - rewrite Hm. reflexivity.
  - destruct (_ =? -1); [reflexivity|]. rewrite IH. reflexivity.
Qed.

Lemma place_app_skip (index : list indexField) (x : doc) (l1 l2 : list doc) :
  Forall (fun y => compareIndex index x y <> -1) l1 ->
  place index x (l1 ++ l2) = l1 ++ place index x l2.
Proof.
  induction 1 as [|y rest Hy _ IH]; simpl; [reflexivity|].
  destruct (Z.eqb_spec (compareIndex index x y) (-1)); [contradiction|].
  rewrite IH. reflexivity.
Qed.

Lemma place_ext (index index' : list indexField) (x : doc) (l : list doc) :
  Forall (fun y => compareIndex index x y = compareIndex index' x y) l ->
  place index x l = place index' x l.
Proof.
  induction 1 as [|y rest Hy _ IH]; simpl; [reflexivity|].
  rewrite Hy, IH. reflexivity.
Qed.

Lemma place_sorted (index : list indexField) (D : list doc) (x : doc) (l : list doc) :
  index_total index D -> x ∈ D -> Forall (fun y => y ∈ D) l ->
  sorted_under index l -> sorted_under index (place index x l).
Proof.
  intros Ht Hx HD Hs. unfold sorted_under in *.
  induction Hs as [|y rest Hs IH Hy]; simpl.
  - repeat constructor.
  - apply Forall_cons in HD as [HyD HD].
    destruct (Z.eqb_spec (compareIndex index x y) (-1)) as [E|E].
    + constructor; [constructor; assumption|].
      constructor; [lia|].
      rewrite Forall_forall in Hy, HD |- *. intros z Hz.
      apply (compareIndex_trans index D x y z); auto. lia.
    + constructor; [apply IH; assumption|].
      rewrite Forall_forall. intros z Hz.
      rewrite place_perm in Hz. apply elem_of_cons in Hz as [->|Hz].
      * pose proof (compareIndex_swap index D x y Ht Hx HyD).
        pose proof (compareIndex_range index D x y Ht Hx HyD). lia.
      * rewrite Forall_forall in Hy. auto.
Qed.

(** *** The traversal *)

Lemma inOrder_acc (t : BinaryTree) : forall acc, inOrder t acc = acc ++ inOrder t [].
Proof.
  induction t as [s i d l m r IHl IHm IHr] using BinaryTree_ind'.
  intros acc. cbn [inOrder].
  destruct l as [l|], m as [m|], r as [r|]; cbn [oForall] in *;
    repeat match goal with
    | |- context [inOrder ?t (?a ++ ?b)] =>
        first [ rewrite (IHl (a ++ b)) | rewrite (IHm (a ++ b)) | rewrite (IHr (a ++ b)) ]
    | |- context [inOrder ?t ?a] =>
        lazymatch a with
        | [] => fail
        | _ => first [ rewrite (IHl a) | rewrite (IHm a) | rewrite (IHr a) ]
        end
    end; rewrite ?app_nil_l, ?app_assoc; try reflexivity.
Qed.

Lemma inOrder_node s i d l m r :
  inOrder (Tree s i d l m r) [] = inOrder_opt l ++ mid_part s m ++ inOrder_opt r.
Proof.
  cbn [inOrder]. unfold inOrder_opt, mid_part.
  destruct l as [l|], m as [m|], r as [r|];
    repeat match goal with
    | |- context [inOrder ?t ?a] =>
        lazymatch a with
        | [] => fail
        | _ => rewrite (inOrder_acc t a)
        end
    end; rewrite ?app_nil_l, ?app_nil_r, ?app_assoc; reflexivity.
Qed.

Lemma newBinaryTree_index x i : index_of (newBinaryTree x i) = i.
Proof. destruct i; reflexivity. Qed.

Lemma newBinaryTree_data x i : data_of (newBinaryTree x i) = Some x.
Proof. destruct i; reflexivity. Qed.

Lemma newBinaryTree_inOrder x i : inOrder (newBinaryTree x i) [] = [x].
Proof.
  induction i as [|f rest IH]; [reflexivity|].
  cbn [newBinaryTree]. rewrite inOrder_node.
  destruct rest as [|g rest']; [reflexivity|].
  unfold inOrder_opt, mid_part. rewrite IH. reflexivity.
Qed.

Lemma newBinaryTree_wf D x i :
  index_total i D -> x ∈ D -> wf (newBinaryTree x i).
Proof.
  intros Ht Hx. induction i as [|f rest IH].
  - cbn. repeat split; try (constructor; fail). repeat constructor.
  - pose proof (level_refl _ _ (index_total_level _ _ Ht) x Hx) as Hr.
    cbn [newBinaryTree wf]. split; [constructor|]. split; [repeat constructor; exact Hr|].
    split; [exact I|]. split; [exact I|].
    destruct rest as [|g rest']; [reflexivity|].
    split; [discriminate|]. split; [apply IH, Ht|].
    split; [apply newBinaryTree_index|]. split; [rewrite newBinaryTree_data; discriminate|].
    rewrite newBinaryTree_inOrder. reflexivity.
Qed.

Lemma place_nil x l : place [] x l = l ++ [x].
Proof. induction l as [|y rest IH]; simpl; [reflexivity|]. rewrite IH. reflexivity. Qed.

Lemma place_left i x L M R :
  M <> [] -> Forall (fun y => compareIndex i x y = -1) M ->
  place i x (L ++ M ++ R) = place i x L ++ M ++ R.
Proof.
  intros Hne HM. destruct M as [|m0 M']; [contradiction|].
  apply Forall_cons in HM as [Hm0 _].
  cbn [app]. apply place_app_stop. exact Hm0.
Qed.

Lemma place_middle i i' x L M R :
  Forall (fun y => compareIndex i x y <> -1) L ->
  Forall (fun y => compareIndex i x y = compareIndex i' x y) M ->
  Forall (fun y => compareIndex i x y = -1) R ->
  place i x (L ++ M ++ R) = L ++ place i' x M ++ R.
Proof.
  intros HL HM HR. rewrite place_app_skip by exact HL. f_equal.
  destruct R as [|r0 R'].
  - rewrite !app_nil_r. apply place_ext, HM.
  - apply Forall_cons in HR as [Hr0 _].
    rewrite place_app_stop by exact Hr0. f_equal. apply place_ext, HM.
Qed.

Lemma place_right i x L M R :
  Forall (fun y => compareIndex i x y <> -1) L ->
  Forall (fun y => compareIndex i x y <> -1) M ->
  place i x (L ++ M ++ R) = L ++ M ++ place i x R.
Proof.
  intros HL HM. rewrite place_app_skip by exact HL.
  rewrite place_app_skip by exact HM. reflexivity.
Qed.

Lemma mid_part_perm s i d l m r :
  wf (Tree s i (Some d) l m r) -> mid_part s m ≡ₚ s.
Proof.
  cbn [wf]. intros (_ & _ & _ & _ & Hm).
  destruct m as [m|]; [|reflexivity]. apply Hm.
Qed.

Lemma insert_index (t : BinaryTree) (x : doc) :
  index_of (fst (insert t x)) = index_of t.
Proof.
  destruct t as [s i [d|] l m r]; cbn [insert index_of].
  - destruct (_ =? -1); [destruct l; reflexivity|].
    destruct (_ =? 0).
    { destruct m as [m|]; [destruct (insert m x)|destruct (tail i)]; reflexivity. }
    destruct (_ =? 1); [destruct r; reflexivity|reflexivity].
  - destruct m as [m|]; [destruct (insert m x)|destruct (tail i)]; reflexivity.
Qed.


Section Insert.
Variables (D : list doc) (x : doc).
Hypothesis Hx : x ∈ D.

Lemma insert_ok_empty s i l m r : insert_ok D x (Tree s i None l m r).
Proof.
  intros Hwf Ht _. cbn [wf] in Hwf. destruct Hwf as (-> & -> & -> & ->).
  cbn [index_of] in Ht.
  pose proof (level_refl _ _ (index_total_level _ _ Ht) x Hx) as Hr.
  cbn [insert fst]. destruct i as [|f [|g rest]]; cbn [tail fst app].
  - split; [|reflexivity]. cbn. repeat split; repeat constructor.
  - split; [|reflexivity]. cbn [wf]. repeat split; repeat constructor. exact Hr.
  - split.
    + cbn [wf]. split; [constructor|]. split; [repeat constructor; exact Hr|].
      split; [exact I|]. split; [exact I|].
      split; [discriminate|]. split; [apply (newBinaryTree_wf D); [apply Ht|exact Hx]|].
      split; [apply newBinaryTree_index|].
      split; [rewrite newBinaryTree_data; discriminate|].
      rewrite newBinaryTree_inOrder. reflexivity.
    + rewrite inOrder_node. unfold inOrder_opt, mid_part.
      rewrite newBinaryTree_inOrder. reflexivity.
Qed.


Lemma child_insert (P : doc -> Prop) (i : list indexField) (c : option BinaryTree) :
  oForall (insert_ok D x) c ->
  match c with
  | None => True
  | Some t => wf t /\ index_of t = i /\ data_of t <> None /\ Forall P (inOrder t [])
  end ->
  index_total i D -> Forall (fun y => y ∈ D) (inOrder_opt c) ->
  let c' := match c with
            | Some t => fst (insert t x)
            | None => newBinaryTree x i
            end in
  wf c' /\ index_of c' = i /\ data_of c' <> None /\
  inOrder c' [] = place i x (inOrder_opt c).
Proof.
  intros IH Hc Ht HD. destruct c as [t|]; cbn zeta.
  - destruct Hc as (Hwf & Hi & _ & _). cbn [oForall inOrder_opt] in *.
    rewrite <- Hi in Ht. destruct (IH Hwf Ht HD) as [Hwf' Hin].
    split; [exact Hwf'|]. split; [rewrite insert_index; exact Hi|].
    split; [apply insert_has_data|]. rewrite Hin, Hi. reflexivity.
  - split; [apply (newBinaryTree_wf D); assumption|].
    split; [apply newBinaryTree_index|].
    split; [rewrite newBinaryTree_data; discriminate|].
    apply newBinaryTree_inOrder.
Qed.

Lemma insert_ok_node s i d l m r :
  oForall (insert_ok D x) l -> oForall (insert_ok D x) m -> oForall (insert_ok D x) r ->
  insert_ok D x (Tree s i (Some d) l m r).
Proof.
  intros IHl IHm IHr Hwf Ht HD.
  pose proof (mid_part_perm _ _ _ _ _ _ Hwf) as HMp.
  rewrite inOrder_node in HD. apply Forall_app in HD as [HDl HD].
  apply Forall_app in HD as [HDm HDr].
  cbn [wf] in Hwf. destruct Hwf as (Hdin & Hs & Hl & Hr & Hm).
  cbn [index_of] in *.
  pose proof (index_total_level _ _ Ht) as lev.
  assert (Forall (fun y => y ∈ D) s) as HsD by (rewrite <- HMp; exact HDm).
  assert (d ∈ D) as Hd by (rewrite Forall_forall in HsD; auto).
  assert (Forall (fun y => _compareFunc i y d = 0) (mid_part s m)) as HM0
    by (rewrite HMp; exact Hs).
  assert (Forall (fun y => _compareFunc i y d = -1) (inOrder_opt l)) as HL
    by (destruct l; [apply Hl|constructor]).
  assert (Forall (fun y => _compareFunc i y d = 1) (inOrder_opt r)) as HR
    by (destruct r; [apply Hr|constructor]).
  pose proof (level_range _ _ lev x d Hx Hd) as Hrange.
  rewrite inOrder_node. cbn [insert].
  destruct (Z.eqb_spec (_compareFunc i x d) (-1)) as [E|E];
    [|destruct (Z.eqb_spec (_compareFunc i x d) 0) as [E0|E0];
      [|destruct (Z.eqb_spec (_compareFunc i x d) 1) as [E1|E1]; [|lia]]].
  - (* the document goes left *)
    destruct (child_insert _ i l IHl Hl Ht HDl) as (Hwf' & Hi' & Hd' & Hin').
    set (l' := match l with Some t => fst (insert t x) | None => newBinaryTree x i end) in *.
    assert (forall y, y ∈ mid_part s m -> compareIndex i x y = -1) as Hlt.
    { intros y Hy. rewrite Forall_forall in HM0, HDm.
      assert (_compareFunc i x y = -1) as Hc
        by (apply (level_lt _ _ lev x y d); auto; rewrite (HM0 y Hy); lia).
      rewrite compareIndex_level; lia. }
    assert (fst (match l with
                 | Some l0 => (Tree s i (Some d) (Some (fst (insert l0 x))) m r, RUndefined)
                 | None => (Tree s i (Some d) (Some (newBinaryTree x i)) m r, RUndefined)
                 end) = Tree s i (Some d) (Some l') m r) as ->
      by (destruct l; reflexivity).
    split.
    + cbn [wf]. repeat split; try assumption.
      rewrite Hin'. eapply Permutation_Forall; [symmetry; apply place_perm|].
      constructor; [exact E|exact HL].
    + rewrite inOrder_node. cbn [inOrder_opt]. rewrite Hin'.
      symmetry. apply place_left.
      * intros Hnil. rewrite Hnil in HMp. apply Permutation_nil in HMp.
        subst s. inversion Hdin.
      * rewrite Forall_forall. exact Hlt.
  - (* the document goes to the middle *)
    assert (Forall (fun y => compareIndex i x y <> -1) (inOrder_opt l)) as HLc.
    { rewrite Forall_forall in HL, HDl |- *. intros y Hy.
      assert (_compareFunc i x y = 1) as Hc
        by (apply (level_gt _ _ lev x y d); auto; rewrite (HL y Hy); lia).
      rewrite compareIndex_level; lia. }
    assert (Forall (fun y => compareIndex i x y = compareIndex (tail i) x y)
                   (mid_part s m)) as HMc.
    { rewrite Forall_forall in HM0, HDm |- *. intros y Hy.
      apply compareIndex_tail, (level_eq _ _ lev x y d); auto. }
    assert (Forall (fun y => compareIndex i x y = -1) (inOrder_opt r)) as HRc.
    { rewrite Forall_forall in HR, HDr |- *. intros y Hy.
      assert (_compareFunc i x y = -1) as Hc
        by (apply (level_lt _ _ lev x y d); auto; rewrite (HR y Hy); lia).
      rewrite compareIndex_level; lia. }
    assert (d ∈ s ++ [x]) as Hdin' by (apply elem_of_app; left; exact Hdin).
    assert (Forall (fun y => _compareFunc i y d = 0) (s ++ [x])) as Hs'
      by (apply Forall_app; split; [exact Hs|repeat constructor; exact E0]).
    rewrite (place_middle i (tail i) x _ _ _ HLc HMc HRc).
    destruct m as [m0|].
    + destruct Hm as (Hne & Hwfm & Him & Hdm & Hpm).
      cbn [oForall mid_part] in *.
      unfold insert_ok in IHm. rewrite Him in IHm.
      destruct (IHm Hwfm (index_total_tail _ _ Ht) HDm) as [Hwf' Hin'].
      destruct (insert m0 x) as [m' rr] eqn:Em. cbn [fst] in *.
      split.
      * cbn [wf]. repeat split; try assumption.
        -- pose proof (insert_index m0 x) as Hi. rewrite Em in Hi. cbn [fst] in Hi.
           rewrite Hi. exact Him.
        -- pose proof (insert_has_data m0 x) as Hdd. rewrite Em in Hdd. exact Hdd.
        -- rewrite Hin', place_perm, Hpm. apply Permutation_cons_append.
      * rewrite inOrder_node. cbn [mid_part]. rewrite Hin'. reflexivity.
    + cbn [mid_part] in *. rewrite Hm. cbn [fst]. split.
      * cbn [wf]. repeat split; assumption.
      * rewrite inOrder_node. cbn [mid_part]. rewrite place_nil. reflexivity.
  - (* the document goes right *)
    destruct (child_insert _ i r IHr Hr Ht HDr) as (Hwf' & Hi' & Hd' & Hin').
    set (r' := match r with Some t => fst (insert t x) | None => newBinaryTree x i end) in *.
    assert (forall L, Forall (fun y => y ∈ D) L ->
              Forall (fun y => _compareFunc i y d < 1) L ->
              Forall (fun y => compareIndex i x y <> -1) L) as Hge.
    { intros L HLD HLc. rewrite Forall_forall in HLD, HLc |- *. intros y Hy.
      assert (_compareFunc i x y = 1) as Hc
        by (apply (level_gt _ _ lev x y d); auto; specialize (HLc y Hy); lia).
      rewrite compareIndex_level; lia. }
    assert (fst (match r with
                 | Some r0 => (Tree s i (Some d) l m (Some (fst (insert r0 x))), RUndefined)
                 | None => (Tree s i (Some d) l m (Some (newBinaryTree x i)), RUndefined)
                 end) = Tree s i (Some d) l m (Some r')) as ->
      by (destruct r; reflexivity).
    split.
    + cbn [wf]. repeat split; try assumption.
      rewrite Hin'. eapply Permutation_Forall; [symmetry; apply place_perm|].
      constructor; [exact E1|exact HR].
    + rewrite inOrder_node. cbn [inOrder_opt]. rewrite Hin'.
      symmetry. apply place_right; apply Hge; try assumption.
      * eapply Forall_impl; [exact HL|]. intros y Hy. simpl in Hy. lia.
      * eapply Forall_impl; [exact HM0|]. intros y Hy. simpl in Hy. lia.
Qed.

Lemma insert_place (t : BinaryTree) : insert_ok D x t.
Proof.
  induction t as [s i [d|] l m r IHl IHm IHr] using BinaryTree_ind'.
  - apply insert_ok_node; assumption.
  - apply insert_ok_empty.
Qed.
End Insert.

Lemma insert_all_place (D : list doc) (index : list indexField) (vals : list doc) :
  index_total index D -> Forall (fun y => y ∈ D) vals ->
  forall t, wf t -> index_of t = index -> Forall (fun y => y ∈ D) (inOrder t []) ->
    wf (insert_all t vals) /\ index_of (insert_all t vals) = index /\
    inOrder (insert_all t vals) []
      = fold_left (fun acc x => place index x acc) vals (inOrder t []).
Proof.
  intros Ht Hvals. induction Hvals as [|v rest Hv _ IH]; intros t Hwf Hi HD.
  - cbn. auto.
  - cbn [insert_all fold_left]. rewrite <- Hi in Ht.
    destruct (insert_place D v Hv t Hwf Ht HD) as [Hwf' Hin'].
    rewrite Hi in *. rewrite <- Hin'. apply IH.
    + exact Hwf'.
    + rewrite insert_index. exact Hi.
    + rewrite Hin'. eapply Permutation_Forall; [symmetry; apply place_perm|].
      constructor; assumption.
Qed.

Lemma fold_place_perm (index : list indexField) (vals acc : list doc) :
  fold_left (fun a x => place index x a) vals acc ≡ₚ acc ++ vals.
Proof.
  revert acc. induction vals as [|v rest IH]; intros acc; cbn [fold_left].
  - rewrite app_nil_r. reflexivity.
  - rewrite IH, place_perm. rewrite (Permutation_middle acc rest v). reflexivity.
Qed.

Lemma fold_place_sorted (D : list doc) (index : list indexField) (vals : list doc) :
  index_total index D -> Forall (fun y => y ∈ D) vals ->
  forall acc, Forall (fun y => y ∈ D) acc -> sorted_under index acc ->
    sorted_under index (fold_left (fun a x => place index x a) vals acc).
Proof.
  intros Ht Hvals. induction Hvals as [|v rest Hv _ IH]; intros acc HD Hs; [exact Hs|].
  cbn [fold_left]. apply IH.
  - eapply Permutation_Forall; [symmetry; apply place_perm|]. constructor; assumption.
  - apply (place_sorted index D); assumption.
Qed.

Lemma emptyTree_wf (index : list indexField) : wf (emptyTree index).
Proof. cbn. auto. Qed.

Lemma inOrder_stable_sort (index : list indexField) (vals : list doc) :
  index_total index vals ->
  inOrder (insert_all (emptyTree index) vals) [] = stable_sort index vals.
Proof.
  intros Ht.
  apply (insert_all_place vals index vals Ht); [apply Forall_forall; auto| | |].
  - apply emptyTree_wf.
  - reflexivity.
  - constructor.
Qed.

Lemma numeric_index_total (index : list indexField) (D : list doc) :
  numeric_on index D -> index_total index D.
Proof.
  unfold numeric_on. induction index as [|f rest IH]; intros Hn; [exact I|].
  split.
  - assert (forall a, a ∈ D -> exists n, get a (key f) = VNum n) as Hf.
    { intros a Ha. rewrite Forall_forall in Hn. specialize (Hn a Ha).
      apply Forall_cons in Hn as [Hn _]. exact Hn. }
    assert (forall a b, a ∈ D -> b ∈ D -> exists na nb,
              _compareFunc (f :: rest) a b =
                (if is_num (val f) 1 then
                   if nb <? na then 1 else if na <? nb then -1 else 0
                 else if is_num (val f) (-1) then
                   if nb <? na then -1 else if na <? nb then 1 else 0
                 else 0) /\ get a (key f) = VNum na /\ get b (key f) = VNum nb) as Hc.
    { intros a b Ha Hb. destruct (Hf a Ha) as [na Ea], (Hf b Hb) as [nb Eb].
      exists na, nb. unfold _compareFunc. rewrite Ea, Eb. auto. }
    split.
    + intros a b Ha Hb.
      destruct (Hc a b Ha Hb) as (na & nb & -> & Ea & Eb).
      destruct (Hc b a Hb Ha) as (nb' & na' & -> & Eb' & Ea').
      rewrite Ea in Ea'. rewrite Eb in Eb'. inversion Ea'. inversion Eb'. subst.
      destruct (is_num (val f) 1), (is_num (val f) (-1));
        destruct (Z.ltb_spec nb' na'), (Z.ltb_spec na' nb'); lia.
    + intros a b c Ha Hb Hc'.
      destruct (Hc a b Ha Hb) as (na & nb & -> & Ea & Eb).
      destruct (Hc b c Hb Hc') as (nb' & nc & -> & Eb' & Ec).
      destruct (Hc a c Ha Hc') as (na' & nc' & -> & Ea' & Ec').
      rewrite Ea in Ea'. rewrite Eb in Eb'. rewrite Ec in Ec'.
      inversion Ea'. inversion Eb'. inversion Ec'. subst.
      destruct (is_num (val f) 1), (is_num (val f) (-1));
        destruct (Z.ltb_spec nb' na'), (Z.ltb_spec na' nb'),
                 (Z.ltb_spec nc' nb'), (Z.ltb_spec nb' nc'),
                 (Z.ltb_spec nc' na'), (Z.ltb_spec na' nc'); lia.
  - apply IH. eapply Forall_impl; [exact Hn|]. intros a Ha.
    apply Forall_cons in Ha as [_ Ha]. exact Ha.
Qed.

(** C5, as the code has it: when every level of the index is a total
    preorder on the documents, the traversal of the tree built from any
    permutation of them is a permutation of the documents, is sorted
    under the compound comparator, and is the stable insertion sort of
    the insertion sequence, so that documents that tie on every level
    come out in insertion order; when no two different documents tie,
    every permutation gives the same sequence. *)
Theorem inOrder_sorted_stable (index : list indexField) (ds ds' : list doc) :
  index_total index ds -> ds ≡ₚ ds' ->
  let out := inOrder (insert_all (emptyTree index) ds') [] in
  out ≡ₚ ds /\ sorted_under index out /\ out = stable_sort index ds' /\
  (no_ties index ds -> out = inOrder (insert_all (emptyTree index) ds) []).
Proof.
  intros Ht Hp out.
  assert (index_total index ds') as Ht'
    by (apply (index_total_subset index ds); [intros y; rewrite Hp; auto|exact Ht]).
  assert (out = stable_sort index ds') as Hout by (apply inOrder_stable_sort, Ht').
  assert (out ≡ₚ ds) as Hperm
    by (rewrite Hout; unfold stable_sort; rewrite fold_place_perm; symmetry; exact Hp).
  assert (sorted_under index out) as Hsorted.
  { rewrite Hout. apply (fold_place_sorted ds' index ds' Ht').
    - apply Forall_forall; auto.
    - constructor.
    - constructor. }
  repeat split; try assumption.
  intros Hties.
  apply (StronglySorted_unique_strong (fun a b => compareIndex index a b <= 0)).
  - intros x1 x2 H1 H2 H12 H21. rewrite Hperm in H1.
    assert (x2 ∈ ds) as H2'.
    { rewrite inOrder_stable_sort in H2 by exact Ht.
      unfold stable_sort in H2. rewrite fold_place_perm in H2. exact H2. }
    apply Hties; try assumption.
    pose proof (compareIndex_swap index ds x1 x2 Ht H1 H2'). lia.
  - exact Hsorted.
  - rewrite inOrder_stable_sort by exact Ht.
    apply (fold_place_sorted ds index ds Ht); [apply Forall_forall; auto|constructor|constructor].
  - rewrite Hperm. rewrite inOrder_stable_sort by exact Ht.
    unfold stable_sort. rewrite fold_place_perm. reflexivity.
Qed.


End OrderFacts.

(** C5 at a concrete input: ascending on [a] and descending on [b],
    three documents inserted in another order. *)
Lemma inOrder_sorted_stable_witness :
  let index := [IndexField "a" (VNum 1); IndexField "b" (VNum (-1))] in
  let d1 := [("a", VNum 2); ("b", VNum 1)] in
  let d2 := [("a", VNum 1); ("b", VNum 1)] in
  let d3 := [("a", VNum 1); ("b", VNum 2)] in
  let ds := [d1; d2; d3] in
  let ds' := [d2; d1; d3] in
  let out := inOrder (insert_all (host := plainHost) (emptyTree index) ds') [] in
  index_total (host := plainHost) index ds /\
  ds ≡ₚ ds' /\
  (out ≡ₚ ds /\ sorted_under (host := plainHost) index out /\
   out = stable_sort (host := plainHost) index ds' /\
   (no_ties (host := plainHost) index ds ->
    out = inOrder (insert_all (host := plainHost) (emptyTree index) ds) [])) /\
  out = [d3; d2; d1].
Proof.
  cbv zeta.
  assert (index_total (host := plainHost)
            [IndexField "a" (VNum 1); IndexField "b" (VNum (-1))]
            [[("a", VNum 2); ("b", VNum 1)]; [("a", VNum 1); ("b", VNum 1)];
             [("a", VNum 1); ("b", VNum 2)]]) as Ht.
  { apply numeric_index_total. repeat constructor; eexists; reflexivity. }
  split; [exact Ht|]. split; [apply perm_swap|]. split.
  - apply (inOrder_sorted_stable (host := plainHost) _ _ _ Ht). apply perm_swap.
  - vm_compute. reflexivity.
Defined.

(** C5 as stated fails.  Two different documents that tie on the index
    come out in the order they went in, so two insertion orders give two
    sequences; and with a document whose indexed field is undefined, which
    compares equal to every other one, the traversal need not be sorted. *)
Lemma inOrder_depends_on_insertion_order :
  let index := [IndexField "a" (VNum 1)] in
  let d1 := [("a", VNum 1); ("b", VNum 1)] in
  let d2 := [("a", VNum 1); ("b", VNum 2)] in
  let e1 := [("b", VNum 0)] in
  let e2 := [("a", VNum 2)] in
  let e3 := [("a", VNum 1)] in
  [d1; d2] ≡ₚ [d2; d1] /\
  inOrder (insert_all (host := plainHost) (emptyTree index) [d1; d2]) []
    <> inOrder (insert_all (host := plainHost) (emptyTree index) [d2; d1]) [] /\
  ~ sorted_under (host := plainHost) index
      (inOrder (insert_all (host := plainHost) (emptyTree index) [e1; e2; e3]) []).
Proof.
  cbv zeta. split; [apply perm_swap|]. split.
  - vm_compute. discriminate.
  - intros Hs. unfold sorted_under in Hs.
    replace (inOrder (insert_all (host := plainHost) (emptyTree [IndexField "a" (VNum 1)])
               [[("b", VNum 0)]; [("a", VNum 2)]; [("a", VNum 1)]]) [])
      with [[("b", VNum 0)]; [("a", VNum 2)]; [("a", VNum 1)]] in Hs
      by (vm_compute; reflexivity).
    apply StronglySorted_inv in Hs as [Hs _].
    apply StronglySorted_inv in Hs as [_ Hs].
    apply Forall_cons in Hs as [Hs _]. vm_compute in Hs. apply Hs. reflexivity.
Qed.

(** ** The transform function on update packets *)

(** C1, as the code has it: on an update packet, for a View that is not
    dropped and has a query, the transform function returns false and
    sends nothing when [diff.insert] and [diff.remove] are both empty,
    whatever [diff.update] holds; otherwise it returns true after sending
    an insert packet with [diff.insert] when that is not empty, then one
    update packet [{query: {pk: doc[pk]}, update: doc}] for every entry of
    [diff.update], then one remove packet when [diff.remove] is not
    empty. *)
Theorem transform_update (self : ioContext) (chainPacket : packet) :
  io_isDropped self = false ->
  truthy (io_query self) = true ->
  ptype chainPacket = "update" ->
  let d := io_diff self (io_query self) (io_options self) in
  let pk := io_primaryKey self in
  (diff_insert d = [] /\ diff_remove d = [] ->
   transform self chainPacket = ([], false)) /\
  (diff_insert d <> [] \/ diff_remove d <> [] ->
   snd (transform self chainPacket) = true /\
   exists removes,
     fst (transform self chainPacket) =
       (if nonempty (diff_insert d)
        then [chainSend "insert" (VArr (map VObj (diff_insert d)))] else [])
       ++ map (fun u => chainSend "update"
                          (VObj [("query", VObj [(pk, get u pk)]); ("update", VObj u)]))
              (diff_update d)
       ++ removes /\
     (diff_remove d = [] -> removes = []) /\
     (diff_remove d <> [] -> exists data, removes = [chainSend "remove" data])).
Proof.
  intros Hd Hq Ht d pk. unfold transform. rewrite Hd, Hq, Ht. cbn [negb].
  change (String.eqb "update" "insert") with false.
  change (String.eqb "update" "update") with true. cbv iota.
  fold d. fold pk. split.
  - intros [-> ->]. reflexivity.
  - intros Hne.
    assert (nonempty (diff_insert d) || nonempty (diff_remove d) = true) as ->.
    { destruct Hne as [Hne|Hne];
        [destruct (diff_insert d)|destruct (diff_remove d)];
        try contradiction; cbn; rewrite ?orb_true_r; reflexivity. }
    split; [reflexivity|]. cbn [fst]. unfold update_packets.
    exists (if nonempty (diff_remove d)
            then [chainSend "remove"
                    (VObj [("query",
                            VObj [("$or",
                                   VArr (map (fun r => VObj [("_id", get r pk)])
                                             (diff_remove d)))])])]
            else []).
    split; [|split].
    + destruct (diff_update d); reflexivity.
    + intros ->. reflexivity.
    + intros Hr. destruct (diff_remove d); [contradiction|].
      eexists. reflexivity.
Qed.

(** C1 at a concrete input: a diff with one document to insert and one
    to update. *)
Lemma transform_update_witness :
  let ins := [("_id", VNum 4); ("age", VNum 50)] in
  let upd := [("_id", VNum 2); ("age", VNum 26)] in
  let self := IoContext false (VObj [("age", VObj [("$gte", VNum 25)])]) VUndef
                (fun _ _ _ => true) (fun _ _ => Diff [ins] [upd] []) "_id" in
  let chainPacket := chainSend "update" VUndef in
  io_isDropped self = false /\
  truthy (io_query self) = true /\
  ptype chainPacket = "update" /\
  transform self chainPacket =
    ([chainSend "insert" (VArr [VObj ins]);
      chainSend "update"
        (VObj [("query", VObj [("_id", VNum 2)]); ("update", VObj upd)])],
     true).
Proof.
  cbv zeta. split; [reflexivity|]. split; [reflexivity|]. split; [reflexivity|].
  pose proof (transform_update
    (IoContext false (VObj [("age", VObj [("$gte", VNum 25)])]) VUndef
       (fun _ _ _ => true)
       (fun _ _ => Diff [[("_id", VNum 4); ("age", VNum 50)]]
                        [[("_id", VNum 2); ("age", VNum 26)]] []) "_id")
    (chainSend "update" VUndef) eq_refl eq_refl eq_refl) as [_ Hsend].
  destruct Hsend as [Hret _]; [left; discriminate|].
  apply injective_projections; [reflexivity|exact Hret].
Defined.

(** C1 as stated fails: a diff that holds only an update is not empty,
    and yet the transform function sends nothing and returns false. *)
Lemma transform_update_only_passes :
  let upd := [("_id", VNum 2); ("age", VNum 26)] in
  let self := IoContext false (VObj [("age", VObj [("$gte", VNum 25)])]) VUndef
                (fun _ _ _ => true) (fun _ _ => Diff [] [upd] []) "_id" in
  diff_update (io_diff self (io_query self) (io_options self)) <> [] /\
  transform self (chainSend "update" VUndef) = ([], false).
Proof. cbv zeta. split; [discriminate|reflexivity]. Qed.

(** Whatever the primary key is, the clauses of the remove packet are
    keyed by [_id]. *)
Lemma remove_packet_keyed_by_id (pk : string) (d : diff) :
  diff_remove d <> [] ->
  last (update_packets pk d) =
    Some (chainSend "remove"
            (VObj [("query",
                    VObj [("$or",
                           VArr (map (fun r => VObj [("_id", get r pk)])
                                     (diff_remove d)))])])).
Proof.
  intros Hr. unfold update_packets.
  destruct (diff_remove d); [contradiction|]. cbn [nonempty].
  rewrite !app_assoc. apply last_snoc.
Qed.

(** C2 on the code: with the primary key [id], and one document
    [{id: 5}] to remove, the clause of the remove packet is [{_id: 5}],
    not [{id: 5}]. *)
Theorem transform_remove_clause_key :
  let self := IoContext false (VObj [("age", VObj [("$gte", VNum 25)])]) VUndef
                (fun _ _ _ => true)
                (fun _ _ => Diff [] [] [[("id", VNum 5); ("age", VNum 10)]]) "id" in
  transform self (chainSend "update" VUndef) =
    ([chainSend "remove"
        (VObj [("query", VObj [("$or", VArr [VObj [("_id", VNum 5)]])])])],
     true).
Proof. reflexivity. Qed.

(** ** The insert case of the chain handler *)

Section ChainHandlerFacts.
Context {C B : Type} {collection : CollectionOps C} {bucket : ActiveBucketOps B}.

(** Without [$orderBy] the payload goes to [_insertHandle] once, with
    the length of [_data] as the index. *)
Lemma chainHandler_insert_unordered (options : value) (docs : list value)
    (c : C) (b : B) :
  truthy options && truthy (prop options "$orderBy") = false ->
  _chainHandler_insert options (VArr docs) (c, b)
    = (_insertHandle (VArr docs) (data_length c) c, b).
Proof. intros Ho. unfold _chainHandler_insert. rewrite Ho. reflexivity. Qed.

(** With [$orderBy] and a payload of two documents, [_insertHandle] is
    called twice, each time with the whole payload. *)
Lemma chainHandler_insert_ordered_two (options : value) (d1 d2 : value)
    (c : C) (b : B) :
  truthy options && truthy (prop options "$orderBy") = true ->
  let data := VArr [d1; d2] in
  let (i1, b1) := bucket_insert d1 b in
  let (i2, b2) := bucket_insert d2 b1 in
  _chainHandler_insert options data (c, b)
    = (_insertHandle data i2 (_insertHandle data i1 c), b2).
Proof.
  intros Ho. unfold _chainHandler_insert. rewrite Ho. cbn.
  destruct (bucket_insert d1 b) as [i1 b1].
  destruct (bucket_insert d2 b1) as [i2 b2]. reflexivity.
Qed.

End ChainHandlerFacts.

(** C4 on the code: a View ordered by [n], holding [{n: 1}] and [{n: 5}],
    receives an insert packet with [{n: 2}] and [{n: 7}].  The bucket
    gives the indexes 1 and 3, and at each of them the whole payload is
    spliced in, so that [_data] ends as 1, 2, 7, 2, 7, 5 where splicing
    each document at its own index gives 1, 2, 5, 7. *)
Theorem chainHandler_insert_splices_whole_payload :
  let n (k : Z) : value := VObj [("n", VNum k)] in
  let options := VObj [("$orderBy", VObj [("n", VNum 1)])] in
  let index := keys [("n", VNum 1)] in
  let _data := [n 1; n 5] in
  let tracked := (index, [as_doc (n 1); as_doc (n 5)]) in
  _chainHandler_insert (collection := specCollection)
      (bucket := specBucket (host := plainHost))
      options (VArr [n 2; n 7]) (_data, tracked)
    = ([n 1; n 2; n 7; n 2; n 7; n 5],
       (index, [as_doc (n 1); as_doc (n 2); as_doc (n 5); as_doc (n 7)])).
Proof. vm_compute. reflexivity. Qed.

(** ** Dropping a View *)

Lemma View_drop_live (w : World) (v : ref) (o : ViewObj) (pd : ref) (cb : bool) :
  views w !! v = Some o -> isDropped o = false -> _privateData o = Some pd ->
  View_drop v cb w = (Ok true, dropped_world v o cb w).
Proof.
  intros Hv Hd Hp.
  unfold View_drop, dropped_world, drop_calls.
  unfold mbind, M_bind, the_view at 1. rewrite Hv, Hd. cbn [negb].
  destruct o as [name st from io pd' pub te db qs ls ch ab]. cbn in Hp. subst pd'.
  cbn [_from _io _privateData _publicData _db _name].
  destruct w as [vs cs ds nr cl].
  destruct from as [f|], io as [i|], pub as [p|], db as [d|], cb;
    cbn; repeat case_bool_decide; 
    try destruct (String.eqb name EmptyString); cbn;
    rewrite <- ?app_assoc; try reflexivity.
Qed.

Lemma remove_first_not_in (v : ref) (l : list ref) :
  NoDup l -> v ∉ remove_first v l.
Proof.
  induction 1 as [|y l Hy Hl IH]; cbn; [apply not_elem_of_nil|].
  destruct (Nat.eqb_spec y v) as [->|Hne]; [exact Hy|].
  rewrite elem_of_cons. intros [->|Hin]; [contradiction|]. apply IH, Hin.
Qed.

(** C8: the first [drop] of a View that is not dropped returns true; it
    leaves the View dropped, makes the calls of [drop_calls] in that
    order, takes the View out of the list of its source, deletes the entry
    of its name in the registry of its database; and every later [drop]
    returns false and leaves the world as it is. *)
Theorem View_drop_idempotent (w : World) (v : ref) (o : ViewObj) (pd : ref)
    (callback : bool) :
  views w !! v = Some o -> isDropped o = false -> _privateData o = Some pd ->
  let w' := dropped_world v o callback w in
  View_drop v callback w = (Ok true, w') /\
  isDropped <$> views w' !! v = Some true /\
  calls w' = calls w ++ drop_calls v o callback /\
  (forall f c, _from o = Some f -> collections w !! f = Some c ->
     coll_view <$> collections w' !! f = Some (remove_first v (coll_view c)) /\
     (NoDup (coll_view c) -> v ∉ remove_first v (coll_view c))) /\
  (forall d db', _db o = Some d -> _name o <> EmptyString -> dbs w' !! d = Some db' ->
     db_view db' !! _name o = None) /\
  (forall callback', View_drop v callback' w' = (Ok false, w')).
Proof.
  intros Hv Hd Hp w'. split; [apply (View_drop_live w v o pd); assumption|].
  assert (views w' !! v = Some (released (with_state (Some "dropped") o))) as Hv'.
  { unfold w', dropped_world. cbn [views].
    rewrite !lookup_alter_eq, Hv. reflexivity. }
  split; [rewrite Hv'; reflexivity|].
  split; [reflexivity|]. split; [|split].
  - intros f c Hf Hc. split; [|apply remove_first_not_in].
    unfold w', dropped_world. cbn [collections]. rewrite Hf.
    rewrite lookup_alter_eq, Hc. reflexivity.
  - intros d db' Hdb Hn Hl. unfold w', dropped_world in Hl. cbn [dbs] in Hl.
    rewrite Hdb in Hl.
    destruct (String.eqb_spec (_name o) EmptyString) as [E|_]; [contradiction|].
    cbn [negb] in Hl. rewrite lookup_alter_eq in Hl.
    destruct (dbs w !! d) as [db|]; [|discriminate].
    cbn in Hl. inversion Hl. cbn. apply lookup_delete_eq.
  - intros cb'. unfold View_drop, mbind, M_bind, the_view at 1.
    rewrite Hv'. reflexivity.
Qed.

(** C8 at a concrete input: the View [v] bound to [people]. *)
Lemma View_drop_idempotent_witness :
  let w' := dropped_world 2%nat view_v true world_view in
  views world_view !! 2%nat = Some view_v /\
  isDropped view_v = false /\
  _privateData view_v = Some 3%nat /\
  View_drop 2%nat true world_view = (Ok true, w') /\
  calls w' =
    [CallOff 1%nat "drop" 2%nat; CallIoDrop 4%nat; CallCollectionDrop 3%nat;
     CallEmit 3%nat "drop" 2%nat; CallCallback false true] /\
  coll_view <$> collections w' !! 1%nat = Some [] /\
  Db_viewExists 0%nat "v" w' = Ok false /\
  View_drop 2%nat true w' = (Ok false, w').
Proof.
  cbv zeta.
  pose proof (View_drop_idempotent world_view 2%nat view_v 3%nat true
                eq_refl eq_refl eq_refl)
    as (Hfirst & _ & Hcalls & Hlist & _ & Hsecond).
  split; [reflexivity|]. split; [reflexivity|]. split; [reflexivity|].
  split; [exact Hfirst|]. split; [exact Hcalls|].
  split; [exact (proj1 (Hlist 1%nat _ eq_refl eq_refl))|].
  split; [vm_compute; reflexivity|]. exact (Hsecond true).
Defined.

(** ** Binding a View and the list of views of its source *)

Create HintDb keeps.

Lemma keeps_ret {A : Type} (a : A) : keeps_collections (mret a).
Proof. intros w. reflexivity. Qed.

Lemma keeps_throw {A : Type} (e : error) : keeps_collections (@throw A e).
Proof. intros w. reflexivity. Qed.

Lemma keeps_bind {A B : Type} (m : M A) (f : A -> M B) :
  keeps_collections m -> (forall a, keeps_collections (f a)) ->
  keeps_collections (m ≫= f).
Proof.
  intros Hm Hf w. unfold mbind, M_bind. specialize (Hm w).
  destruct (m w) as [[a|e] w']; cbn in *; [|exact Hm].
  rewrite (Hf a w'). exact Hm.
Qed.

Lemma keeps_log (c : call) : keeps_collections (log c).
Proof. intros w. reflexivity. Qed.

Lemma keeps_new_ref : keeps_collections new_ref.
Proof. intros w. reflexivity. Qed.

Lemma keeps_update_view (v : ref) (f : ViewObj -> ViewObj) :
  keeps_collections (update_view v f).
Proof. intros w. reflexivity. Qed.

Lemma keeps_the_view (v : ref) : keeps_collections (the_view v).
Proof. intros w. unfold the_view. destruct (views w !! v); reflexivity. Qed.

Lemma keeps_defined {A : Type} (o : option A) : keeps_collections (defined o).
Proof. destruct o; intros w; reflexivity. Qed.

Lemma keeps_resolve_source (source : ref) : keeps_collections (resolve_source source).
Proof.
  intros w. unfold resolve_source.
  destruct (views w !! source) as [sv|]; [destruct (_privateData sv)|]; reflexivity.
Qed.

#[local] Hint Resolve keeps_ret keeps_throw keeps_log keeps_new_ref
  keeps_update_view keeps_the_view keeps_defined keeps_resolve_source : keeps.

Lemma keeps_rebuildActiveBucket (v : ref) (orderBy : value) :
  keeps_collections (View_rebuildActiveBucket v orderBy).
Proof.
  unfold View_rebuildActiveBucket. destruct (truthy orderBy); [|auto with keeps].
  apply keeps_bind; [auto with keeps|]. intros o.
  apply keeps_bind; auto with keeps.
Qed.

(** [from] changes no collection: the list of views of the source, and
    of the source it leaves, stay as they are. *)
Lemma View_from_keeps_collections (v source : ref) (callback : bool) :
  keeps_collections (View_from v source callback).
Proof.
  unfold View_from.
  repeat first
    [ apply keeps_rebuildActiveBucket
    | apply keeps_bind; [|intros ?]
    | match goal with
      | |- keeps_collections (match ?x with _ => _ end) => destruct x
      | |- keeps_collections (if ?b then _ else _) => destruct b
      | |- keeps_collections (when ?b _) => destruct b; cbn [when]
      end
    | solve [auto with keeps] ].
Qed.

(** When the source tells the View it was dropped, the View forgets the
    source and is otherwise as it was; it is not dropped. *)
Lemma collectionDropped_forgets_source (w : World) (v c : ref) (o : ViewObj) :
  views w !! v = Some o ->
  let w' := snd (View_collectionDropped v (Some c) w) in
  views w' !! v = Some (with_from None o) /\
  _from (with_from None o) = None /\
  isDropped (with_from None o) = isDropped o.
Proof.
  intros Hv. cbn. rewrite lookup_alter_eq, Hv. auto.
Qed.

(** C6 on the code: a new View bound to the collection [people] with
    [from] has [people] as its source, and the list of views of [people]
    is still empty. *)
Theorem from_leaves_list_of_views_empty :
  let out := bind_new_view world_collection in
  fst out = Ok 1%nat /\
  _from <$> views (snd out) !! 1%nat = Some (Some 0%nat) /\
  coll_view <$> collections (snd out) !! 0%nat = Some [].
Proof. vm_compute. auto. Qed.

(** ** Creating a View through a collection *)

(** When the name is in the registry of the database, [view] throws a
    message that ends in the name. *)
Lemma Collection_view_throws (w : World) (c d : ref) (co : CollectionObj)
    (db : DbObj) (name : string) (query options : value) :
  collections w !! c = Some co -> coll_db co = Some d ->
  dbs w !! d = Some db -> is_Some (db_view db !! name) ->
  Collection_view c name query options w =
    (Throw (Thrown (coll_logIdentifier co ++
       " Cannot create a view using this collection because a view with this name already exists: "
       ++ name)), w).
Proof.
  intros Hc Hd Hdb [view Hn].
  unfold Collection_view, mbind, M_bind, the_collection at 1.
  rewrite Hc, Hd. unfold the_db at 1. rewrite Hdb, Hn. reflexivity.
Qed.

(** The other way to a View, [db.view(name)], puts the View in the
    registry. *)
Lemma Db_view_registers :
  let out := Db_view 0%nat "v" world_db_collection in
  fst out = Ok 2%nat /\ Db_viewExists 0%nat "v" (snd out) = Ok true.
Proof. vm_compute. auto. Qed.

(** C7 on the code: [people.view('v')] on a database with an empty
    registry builds a View bound to [people], and afterwards
    [db.viewExists('v')] is false; a second [people.view('v')] does not
    throw, and builds a second View of that name. *)
Theorem Collection_view_does_not_register :
  let first := Collection_view 1%nat "v" VUndef VUndef world_db_collection in
  let second := Collection_view 1%nat "v" VUndef VUndef (snd first) in
  fst first = Ok (Some 2%nat) /\
  _from <$> views (snd first) !! 2%nat = Some (Some 1%nat) /\
  Db_viewExists 0%nat "v" (snd first) = Ok false /\
  fst second = Ok (Some 5%nat) /\
  coll_view <$> collections (snd second) !! 1%nat = Some [2%nat; 5%nat].
Proof. vm_compute. auto 10. Qed.

(** ** What a lookup returns *)

Section LookupSelectionFacts.
Context {host : Host}.

Lemma filter_none {A : Type} (p : A -> bool) (l : list A) :
  (forall y, y ∈ l -> p y = false) -> List.filter p l = [].
Proof.
  induction l as [|a l IH]; intros Hp; [reflexivity|]. cbn.
  rewrite (Hp a) by (left). apply IH. intros y Hy. apply Hp. right. exact Hy.
Qed.

Lemma filter_all {A : Type} (p : A -> bool) (l : list A) :
  (forall y, y ∈ l -> p y = true) -> List.filter p l = l.
Proof.
  induction l as [|a l IH]; intros Hp; [reflexivity|]. cbn.
  rewrite (Hp a) by (left). f_equal. apply IH. intros y Hy. apply Hp. right. exact Hy.
Qed.

Lemma filter_same {A : Type} (p p' : A -> bool) (l : list A) :
  (forall y, y ∈ l -> p y = p' y) -> List.filter p l = List.filter p' l.
Proof.
  intros Hp. apply List.filter_ext_in. intros y Hy. apply Hp.
  apply list_elem_of_In. exact Hy.
Qed.

Lemma level_total_subset (index : list indexField) (D D' : list doc) :
  (forall x, x ∈ D' -> x ∈ D) -> level_total index D -> level_total index D'.
Proof.
  intros Hsub [Ha Ht]. split.
  - intros a b Ha' Hb'. apply Ha; apply Hsub; assumption.
  - intros a b c Ha' Hb' Hc'. apply Ht; apply Hsub; assumption.
Qed.

Lemma lookup_total_subset (index : list indexField) (D D' : list doc) :
  (forall x, x ∈ D' -> x ∈ D) ->
  forall q, lookup_total index q D -> lookup_total index q D'.
Proof.
  intros Hsub. induction index as [|f rest IH]; intros q; [trivial|].
  cbn [lookup_total]. destruct (truthy (get q (key f))); [|apply IH].
  intros [Hl Hr]. split; [|apply IH, Hr].
  apply (level_total_subset _ (q :: D)); [|exact Hl].
  intros x. rewrite !elem_of_cons. intros [->|Hx]; [left; reflexivity|right; auto].
Qed.

Lemma lookup_ok_child (P : doc -> Prop) (i : list indexField) (c : option BinaryTree)
    (D : list doc) (q : object) :
  oForall lookup_ok c ->
  match c with
  | None => True
  | Some t => wf t /\ index_of t = i /\ data_of t <> None /\ Forall P (inOrder t [])
  end ->
  i <> [] -> Forall (fun y => y ∈ D) (inOrder_opt c) -> lookup_total i q D ->
  match c with Some t => lookup t q | None => Ok [] end
    = Ok (List.filter (selects i q) (inOrder_opt c)).
Proof.
  intros IH Hc Hi HD Ht. destruct c as [t|]; [|reflexivity].
  destruct Hc as (Hwf & Hidx & Hdata & _). cbn [oForall inOrder_opt] in *.
  rewrite <- Hidx in *. apply (IH Hwf Hdata Hi D q HD Ht).
Qed.

Lemma lookup_ok_node s i d l m r :
  oForall lookup_ok l -> oForall lookup_ok m -> oForall lookup_ok r ->
  lookup_ok (Tree s i (Some d) l m r).
Proof.
  intros IHl IHm IHr Hwf _ Hi D q HD Ht.
  pose proof (mid_part_perm _ _ _ _ _ _ Hwf) as HMp.
  rewrite inOrder_node in HD |- *. apply Forall_app in HD as [HDl HD].
  apply Forall_app in HD as [HDm HDr].
  cbn [wf] in Hwf. destruct Hwf as (Hdin & Hs & Hl & Hr & Hm).
  cbn [index_of] in *.
  destruct i as [|f rest]; [contradiction|].
  assert (Forall (fun y => y ∈ D) s) as HsD by (rewrite <- HMp; exact HDm).
  assert (d ∈ D) as Hd by (rewrite Forall_forall in HsD; auto).
  assert (Forall (fun y => _compareFunc (f :: rest) y d = 0) (mid_part s m)) as HM0
    by (rewrite HMp; exact Hs).
  assert (Forall (fun y => _compareFunc (f :: rest) y d = -1) (inOrder_opt l)) as HL
    by (destruct l; [apply Hl|constructor]).
  assert (Forall (fun y => _compareFunc (f :: rest) y d = 1) (inOrder_opt r)) as HR
    by (destruct r; [apply Hr|constructor]).
  rewrite !List.filter_app.
  pose proof Ht as Ht0.
  cbn [lookup]. cbn [lookup_total] in Ht.
  destruct (truthy (get q (key f))) eqn:Etr.
  - (* the query constrains the level *)
    destruct Ht as [lev Ht].
    assert (q ∈ q :: D) as HqD by left.
    assert (forall y, y ∈ D -> y ∈ q :: D) as Hin by (intros y Hy; right; exact Hy).
    pose proof (level_range _ _ lev q d HqD (Hin d Hd)) as Hrange.
    assert (forall y, y ∈ D -> _compareFunc (f :: rest) q d < _compareFunc (f :: rest) y d ->
              selects (f :: rest) q y = false) as Hlt.
    { intros y Hy Hc. cbn [selects]. rewrite Etr.
      rewrite (level_lt _ _ lev q y d) by auto. reflexivity. }
    assert (forall y, y ∈ D -> _compareFunc (f :: rest) y d < _compareFunc (f :: rest) q d ->
              selects (f :: rest) q y = false) as Hgt.
    { intros y Hy Hc. cbn [selects]. rewrite Etr.
      rewrite (level_gt _ _ lev q y d) by auto. reflexivity. }
    assert (_compareFunc (f :: rest) q d = -1 \/ _compareFunc (f :: rest) q d = 0 \/
            _compareFunc (f :: rest) q d = 1) as [E|[E0|E1]] by lia.
    + (* left *)
      rewrite E. cbn [Z.eqb Pos.eqb].
      rewrite (lookup_ok_child _ (f :: rest) l D q IHl Hl Hi HDl Ht0).
      cbn [mbind result_bind].
      rewrite (filter_none _ (mid_part s m)), (filter_none _ (inOrder_opt r)).
      * reflexivity.
      * intros y Hy. rewrite Forall_forall in HR, HDr.
        apply Hlt; [auto|]. rewrite (HR y Hy). lia.
      * intros y Hy. rewrite Forall_forall in HM0, HDm.
        apply Hlt; [auto|]. rewrite (HM0 y Hy). lia.
    + (* middle *)
      rewrite E0. cbn [Z.eqb Pos.eqb]. cbn [mbind result_bind].
      rewrite (filter_none _ (inOrder_opt l)), (filter_none _ (inOrder_opt r)).
      2:{ intros y Hy. rewrite Forall_forall in HR, HDr.
          apply Hlt; [auto|]. rewrite (HR y Hy). lia. }
      2:{ intros y Hy. rewrite Forall_forall in HL, HDl.
          apply Hgt; [auto|]. rewrite (HL y Hy). lia. }
      assert (forall y, y ∈ mid_part s m -> _compareFunc (f :: rest) q y = 0) as Heq.
      { intros y Hy. rewrite Forall_forall in HM0, HDm.
        apply (level_eq _ _ lev q y d); auto. }
      change (decouple q) with q.
      destruct m as [m0|]; cbn [mid_part] in *.
      * destruct Hm as (Hne & Hwfm & Him & Hdm & Hpm). cbn [tail] in *.
        rewrite Him. destruct rest as [|g rest']; [contradiction|].
        assert (forall y, y ∈ inOrder m0 [] ->
                  selects (f :: g :: rest') q y =
                    if is_undefined (get (del q (key f)) (key g)) then true
                    else selects (g :: rest') (del q (key f)) y) as Hsel.
        { intros y Hy. cbn [selects]. rewrite Etr, (Heq y Hy). reflexivity. }
        rewrite (filter_same _ _ _ Hsel).
        cbn [oForall] in IHm.
        pose proof (IHm Hwfm Hdm (eq_ind_r (fun j => j <> []) Hne Him) D
                      (del q (key f)) HDm) as IHm'.
        rewrite Him in IHm'. specialize (IHm' Ht).
        destruct (get (del q (key f)) (key g)) eqn:Eg; cbn [is_undefined];
          rewrite ?IHm'; cbn [mbind result_bind app]; rewrite ?app_nil_r;
          try reflexivity.
        f_equal. symmetry. apply filter_all. reflexivity.
      * cbn [tail] in Hm. subst rest. cbn [mbind result_bind app].
        rewrite !app_nil_r. f_equal.
        symmetry. apply filter_all. intros y Hy. cbn [selects].
        rewrite Etr, (Heq y Hy). reflexivity.
    + (* right *)
      rewrite E1. cbn [Z.eqb Pos.eqb]. cbn [mbind result_bind].
      rewrite (lookup_ok_child _ (f :: rest) r D q IHr Hr Hi HDr Ht0).
      cbn [mbind result_bind].
      rewrite (filter_none _ (mid_part s m)), (filter_none _ (inOrder_opt l)).
      * reflexivity.
      * intros y Hy. rewrite Forall_forall in HL, HDl.
        apply Hgt; [auto|]. rewrite (HL y Hy). lia.
      * intros y Hy. rewrite Forall_forall in HM0, HDm.
        apply Hgt; [auto|]. rewrite (HM0 y Hy). lia.
  - (* the query does not constrain the level *)
    rewrite (lookup_ok_child _ (f :: rest) l D q IHl Hl Hi HDl Ht0).
    rewrite (lookup_ok_child _ (f :: rest) r D q IHr Hr Hi HDr Ht0).
    cbn [mbind result_bind].
    assert (forall y, selects (f :: rest) q y = selects rest q y) as Hsel
      by (intros y; cbn [selects]; rewrite Etr; reflexivity).
    destruct m as [m0|]; cbn [mid_part] in *.
    + destruct Hm as (Hne & Hwfm & Him & Hdm & Hpm). cbn [tail] in *.
      cbn [oForall] in IHm.
      rewrite (IHm Hwfm Hdm (eq_ind_r (fun j => j <> []) Hne Him) D q)
        by (rewrite ?Him; assumption).
      cbn [mbind result_bind]. rewrite Him. f_equal. f_equal. f_equal.
      apply filter_same. intros y _. symmetry. apply Hsel.
    + cbn [tail] in Hm. subst rest. cbn [mbind result_bind]. f_equal. f_equal. f_equal.
      symmetry. apply filter_all. intros y _. rewrite Hsel. reflexivity.
Qed.

(** What [lookup] returns on a node that holds data: the documents of
    its traversal that [selects] keeps, in traversal order. *)
Theorem lookup_selects (t : BinaryTree) (q : object) :
  wf t -> data_of t <> None -> index_of t <> [] ->
  lookup_total (index_of t) q (inOrder t []) ->
  lookup t q = Ok (List.filter (selects (index_of t) q) (inOrder t [])).
Proof.
  intros Hwf Hd Hi Ht.
  assert (lookup_ok t) as Hok.
  { clear. induction t as [s i [d|] l m r IHl IHm IHr] using BinaryTree_ind'.
    - apply lookup_ok_node; assumption.
    - intros _ Hd. contradiction Hd. reflexivity. }
  apply (Hok Hwf Hd Hi (inOrder t []) q); [apply Forall_forall; auto|exact Ht].
Qed.


Lemma lookup_total_unconstrained (index : list indexField) (q : object) (D : list doc) :
  Forall (fun f => truthy (get q (key f)) = false) index -> lookup_total index q D.
Proof.
  induction 1 as [|f rest Hf _ IH]; [exact I|]. cbn [lookup_total]. rewrite Hf. exact IH.
Qed.

Lemma selects_unconstrained (index : list indexField) (q : object) (d : doc) :
  Forall (fun f => truthy (get q (key f)) = false) index -> selects index q d = true.
Proof.
  induction 1 as [|f rest Hf _ IH]; [reflexivity|]. cbn [selects]. rewrite Hf. exact IH.
Qed.

(** X2: a lookup whose query holds no truthy value at any field of the
    index returns the whole traversal, on the empty tree too. *)
Theorem lookup_unconstrained (t : BinaryTree) (q : object) :
  wf t -> index_of t <> [] ->
  Forall (fun f => truthy (get q (key f)) = false) (index_of t) ->
  lookup t q = Ok (inOrder t []).
Proof.
  intros Hwf Hi Hq. destruct (data_of t) as [d|] eqn:Hd.
  - rewrite (lookup_selects t q Hwf) by
      (congruence || assumption || apply lookup_total_unconstrained, Hq).
    f_equal. apply filter_all. intros y _. apply selects_unconstrained, Hq.
  - destruct t as [s i d' l m r]. cbn in Hd. subst d'.
    cbn [wf] in Hwf. destruct Hwf as (-> & -> & -> & ->). cbn [index_of] in *.
    destruct i as [|f rest]; [contradiction|].
    apply Forall_cons in Hq as [Hf _]. cbn. rewrite Hf. reflexivity.
Qed.

Lemma insert_all_data (vals : list doc) (t : BinaryTree) :
  vals <> [] \/ data_of t <> None -> data_of (insert_all t vals) <> None.
Proof.
  revert t. induction vals as [|v rest IH]; intros t [Hv|Hd]; cbn;
    try contradiction; try assumption.
  - apply IH. right. apply insert_has_data.
  - apply IH. right. apply insert_has_data.
Qed.

Lemma built_tree (index : list indexField) (ds : list doc) :
  index_total index ds ->
  let t := insert_all (emptyTree index) ds in
  wf t /\ index_of t = index /\ inOrder t [] = stable_sort index ds.
Proof.
  intros Ht.
  apply (insert_all_place ds index ds Ht); [apply Forall_forall; auto| | |].
  - apply emptyTree_wf.
  - reflexivity.
  - constructor.
Qed.

(** X1: on the tree built from the documents [ds], a lookup returns the
    documents that [selects] keeps, in the order of the stable sort. *)
Theorem lookup_after_inserts (index : list indexField) (ds : list doc) (q : object) :
  index <> [] -> ds <> [] -> index_total index ds -> lookup_total index q ds ->
  lookup (insert_all (emptyTree index) ds) q
    = Ok (List.filter (selects index q) (stable_sort index ds)).
Proof.
  intros Hi Hds Ht Hq.
  destruct (built_tree index ds Ht) as (Hwf & Hidx & Hin).
  rewrite (lookup_selects _ q Hwf).
  - rewrite Hidx, Hin. reflexivity.
  - apply insert_all_data. left. exact Hds.
  - rewrite Hidx. exact Hi.
  - rewrite Hidx, Hin. apply (lookup_total_subset index ds); [|exact Hq].
    intros x. unfold stable_sort. rewrite fold_place_perm. auto.
Qed.


Lemma numeric_level_total (f : indexField) (rest : list indexField) (L : list doc) :
  (forall a, a ∈ L -> exists n, get a (key f) = VNum n) -> level_total (f :: rest) L.
Proof.
  intros Hf.
  assert (forall a b, a ∈ L -> b ∈ L -> exists na nb,
            _compareFunc (f :: rest) a b =
              (if is_num (val f) 1 then
                 if nb <? na then 1 else if na <? nb then -1 else 0
               else if is_num (val f) (-1) then
                 if nb <? na then -1 else if na <? nb then 1 else 0
               else 0) /\ get a (key f) = VNum na /\ get b (key f) = VNum nb) as Hc.
  { intros a b Ha Hb. destruct (Hf a Ha) as [na Ea], (Hf b Hb) as [nb Eb].
    exists na, nb. unfold _compareFunc. rewrite Ea, Eb. auto. }
  split.
  - intros a b Ha Hb.
    destruct (Hc a b Ha Hb) as (na & nb & -> & Ea & Eb).
    destruct (Hc b a Hb Ha) as (nb' & na' & -> & Eb' & Ea').
    rewrite Ea in Ea'. rewrite Eb in Eb'. inversion Ea'. inversion Eb'. subst.
    destruct (is_num (val f) 1), (is_num (val f) (-1));
      destruct (Z.ltb_spec nb' na'), (Z.ltb_spec na' nb'); lia.
  - intros a b c Ha Hb Hc'.
    destruct (Hc a b Ha Hb) as (na & nb & -> & Ea & Eb).
    destruct (Hc b c Hb Hc') as (nb' & nc & -> & Eb' & Ec).
    destruct (Hc a c Ha Hc') as (na' & nc' & -> & Ea' & Ec').
    rewrite Ea in Ea'. rewrite Eb in Eb'. rewrite Ec in Ec'.
    inversion Ea'. inversion Eb'. inversion Ec'. subst.
    destruct (is_num (val f) 1), (is_num (val f) (-1));
      destruct (Z.ltb_spec nb' na'), (Z.ltb_spec na' nb'),
               (Z.ltb_spec nc' nb'), (Z.ltb_spec nb' nc'),
               (Z.ltb_spec nc' na'), (Z.ltb_spec na' nc'); lia.
Qed.

Lemma numeric_query_get (q : object) (k : string) :
  numeric_query q -> get q k = VUndef \/ exists n, get q k = VNum n.
Proof.
  induction 1 as [|[k' v] rest Hv _ IH]; cbn; [left; reflexivity|].
  destruct (String.eqb k' k); [right; exact Hv|exact IH].
Qed.

Lemma numeric_query_del (q : object) (k : string) :
  numeric_query q -> numeric_query (del q k).
Proof.
  induction 1 as [|[k' v] rest Hv Hrest IH]; cbn; [constructor|].
  destruct (String.eqb k' k); [exact Hrest|constructor; assumption].
Qed.

Lemma get_del_ne (q : object) (k k' : string) :
  k <> k' -> get (del q k) k' = get q k'.
Proof.
  intros Hne. induction q as [|[k0 v] rest IH]; cbn; [reflexivity|].
  destruct (String.eqb_spec k0 k) as [->|Hk].
  - destruct (String.eqb_spec k k'); [contradiction|reflexivity].
  - cbn. rewrite IH. reflexivity.
Qed.

Lemma numeric_lookup_total (index : list indexField) (D : list doc) :
  numeric_on index D -> forall q, numeric_query q -> lookup_total index q D.
Proof.
  unfold numeric_on. induction index as [|f rest IH]; intros Hn q Hq; [exact I|].
  assert (Forall (fun d => Forall (fun f => exists n, get d (key f) = VNum n) rest) D)
    as Hrest.
  { eapply Forall_impl; [exact Hn|]. intros a Ha.
    apply Forall_cons in Ha as [_ Ha]. exact Ha. }
  cbn [lookup_total]. destruct (truthy (get q (key f))) eqn:Etr; [|apply IH; assumption].
  split; [|apply IH; [assumption|apply numeric_query_del, Hq]].
  apply numeric_level_total. intros a Ha. apply elem_of_cons in Ha as [->|Ha].
  - destruct (numeric_query_get q (key f) Hq) as [E|E]; [|exact E].
    rewrite E in Etr. discriminate.
  - rewrite Forall_forall in Hn. specialize (Hn a Ha).
    apply Forall_cons in Hn as [Hn _]. exact Hn.
Qed.

Lemma compare_numbers_zero (f : indexField) (rest : list indexField) (a b : doc)
    (n m : Z) :
  val f = VNum 1 \/ val f = VNum (-1) ->
  get a (key f) = VNum n -> get b (key f) = VNum m ->
  (_compareFunc (f :: rest) a b =? 0) = (n =? m).
Proof.
  intros Hv Ha Hb. unfold _compareFunc. rewrite Ha, Hb.
  destruct Hv as [-> | ->]; cbn;
    destruct (Z.ltb_spec m n), (Z.ltb_spec n m), (Z.eqb_spec n m); cbn; lia || reflexivity.
Qed.

Lemma agrees_del (index : list indexField) (q : object) (k : string) (d : doc) :
  k ∉ map key index -> agrees index (del q k) d = agrees index q d.
Proof.
  induction index as [|g rest IH]; intros Hk; [reflexivity|].
  cbn [agrees forallb map] in *. rewrite not_elem_of_cons in Hk. destruct Hk as [Hne Hk].
  rewrite get_del_ne by exact Hne. f_equal. apply IH, Hk.
Qed.

Lemma selects_agrees (index : list indexField) (d : doc) :
  directed index -> NoDup (map key index) ->
  Forall (fun f => exists m, get d (key f) = VNum m) index ->
  forall q, Forall (fun f => exists n, n <> 0 /\ get q (key f) = VNum n) index ->
    selects index q d = agrees index q d.
Proof.
  intros Hdir. induction Hdir as [|f rest Hf Hdir IH]; intros Hnd Hd q Hq; [reflexivity|].
  apply NoDup_cons in Hnd as [Hnot Hnd]. cbn [map] in *.
  apply Forall_cons in Hd as [[m Hm] Hd].
  apply Forall_cons in Hq as [(n & Hn0 & Hn) Hq].
  assert (Forall (fun g => exists n, n <> 0 /\ get (del q (key f)) (key g) = VNum n) rest)
    as Hq'.
  { rewrite Forall_forall in Hq |- *. intros g Hg.
    rewrite get_del_ne; [apply Hq, Hg|].
    intros E. apply Hnot. rewrite E. apply list_elem_of_fmap. exists g. auto. }
  cbn [selects agrees forallb].
  assert (truthy (get q (key f)) = true) as ->
    by (rewrite Hn; cbn; destruct (Z.eqb_spec n 0); [contradiction|reflexivity]).
  rewrite (compare_numbers_zero f rest q d n m Hf Hn Hm), Hn, Hm. f_equal.
  destruct rest as [|g rest']; [reflexivity|].
  pose proof Hq' as Hq''. apply Forall_cons in Hq'' as [(n' & _ & Hg) _].
  rewrite Hg. cbn [is_undefined].
  rewrite (IH Hnd Hd _ Hq'). apply agrees_del. exact Hnot.
Qed.

(** X3: with numbers everywhere, ascending or descending levels on
    different fields, and a query that holds a non-zero number for every
    field of the index, a lookup returns exactly the inserted documents
    that hold the query's number at every field of the index. *)
Theorem lookup_exact (index : list indexField) (ds : list doc) (q : object) :
  index <> [] -> ds <> [] -> directed index -> NoDup (map key index) ->
  numeric_on index ds -> numeric_query q ->
  Forall (fun f => truthy (get q (key f)) = true) index ->
  lookup (insert_all (emptyTree index) ds) q
    = Ok (List.filter (agrees index q) (stable_sort index ds)).
Proof.
  intros Hi Hds Hdir Hnd Hn Hq Htr.
  rewrite (lookup_after_inserts index ds q Hi Hds).
  - f_equal. apply filter_same. intros d Hd.
    unfold stable_sort in Hd. rewrite fold_place_perm in Hd. cbn [app] in Hd.
    apply selects_agrees; try assumption.
    + unfold numeric_on in Hn. rewrite Forall_forall in Hn. apply Hn, Hd.
    + rewrite Forall_forall in Htr |- *. intros f Hf.
      destruct (numeric_query_get q (key f) Hq) as [E|[n E]].
      * specialize (Htr f Hf). rewrite E in Htr. discriminate.
      * exists n. split; [|exact E]. intros ->. specialize (Htr f Hf).
        rewrite E in Htr. discriminate.
  - apply numeric_index_total, Hn.
  - apply numeric_lookup_total; assumption.
Qed.

(** X4: when the query constrains the first field and holds nothing for
    the second, a lookup returns every inserted document that agrees with
    the query on the first field, whatever the query holds for the fields
    after the second. *)
Theorem lookup_prefix (f g : indexField) (rest : list indexField) (ds : list doc)
    (q : object) :
  let index := f :: g :: rest in
  ds <> [] -> val f = VNum 1 \/ val f = VNum (-1) ->
  numeric_on index ds -> numeric_query q ->
  truthy (get q (key f)) = true ->
  get (del q (key f)) (key g) = VUndef ->
  lookup (insert_all (emptyTree index) ds) q
    = Ok (List.filter (agrees [f] q) (stable_sort index ds)).
Proof.
  intros index Hds Hf Hn Hq Htr Hg.
  rewrite (lookup_after_inserts index ds q); try assumption; try discriminate.
  - f_equal. apply filter_same. intros d Hd.
    unfold stable_sort in Hd. rewrite fold_place_perm in Hd. cbn [app] in Hd.
    unfold index. cbn [selects agrees forallb]. rewrite Htr, Hg. cbn [is_undefined].
    unfold numeric_on in Hn. rewrite Forall_forall in Hn. specialize (Hn d Hd).
    apply Forall_cons in Hn as [[m Hm] _].
    destruct (numeric_query_get q (key f) Hq) as [E|[n E]];
      [rewrite E in Htr; discriminate|].
    rewrite (compare_numbers_zero f (g :: rest) q d n m Hf E Hm), E, Hm.
    reflexivity.
  - apply numeric_index_total, Hn.
  - apply numeric_lookup_total; assumption.
Qed.


(** X5: on the empty tree, a lookup whose query constrains the first
    field of an ascending or descending index throws a TypeError, for the
    comparison reads the field of data that is not there. *)
Theorem lookup_empty_tree_throws (f : indexField) (rest : list indexField)
    (q : object) :
  truthy (get q (key f)) = true ->
  val f = VNum 1 \/ val f = VNum (-1) ->
  lookup (emptyTree (f :: rest)) q = Throw TypeError.
Proof. intros Htr _. cbn. rewrite Htr. reflexivity. Qed.

End LookupSelectionFacts.

Lemma docs_abc_numeric (index : list indexField) :
  Forall (fun f => key f = "a" \/ key f = "b" \/ key f = "c") index ->
  numeric_on index docs_abc.
Proof.
  intros Hk. unfold numeric_on, docs_abc.
  repeat constructor;
    (eapply Forall_impl; [exact Hk|]; intros f [-> | [-> | ->]]; eexists; reflexivity).
Qed.

Lemma index_ab_keys :
  Forall (fun f => key f = "a" \/ key f = "b" \/ key f = "c") index_ab.
Proof. unfold index_ab. repeat (apply Forall_cons; split; [cbn; auto|]). constructor. Qed.

Lemma index_abc_keys :
  Forall (fun f => key f = "a" \/ key f = "b" \/ key f = "c") index_abc.
Proof. unfold index_abc. repeat (apply Forall_cons; split; [cbn; auto|]). constructor. Qed.

(** X1 at a concrete input. *)
Lemma lookup_after_inserts_witness :
  let q := [("a", VNum 1); ("b", VNum 2)] in
  index_ab <> [] /\ docs_abc <> [] /\
  index_total (host := plainHost) index_ab docs_abc /\
  lookup_total (host := plainHost) index_ab q docs_abc /\
  lookup (host := plainHost) (insert_all (host := plainHost) (emptyTree index_ab) docs_abc) q
    = Ok [doc_abc 1 2 3].
Proof.
  cbv zeta.
  assert (index_total (host := plainHost) index_ab docs_abc) as Ht
    by (apply numeric_index_total, docs_abc_numeric, index_ab_keys).
  assert (lookup_total (host := plainHost) index_ab [("a", VNum 1); ("b", VNum 2)] docs_abc)
    as Hq.
  { apply numeric_lookup_total; [apply docs_abc_numeric, index_ab_keys|].
    repeat constructor; eexists; reflexivity. }
  split; [discriminate|]. split; [discriminate|]. split; [exact Ht|]. split; [exact Hq|].
  rewrite (lookup_after_inserts (host := plainHost) index_ab docs_abc _
             ltac:(discriminate) ltac:(discriminate) Ht Hq).
  vm_compute. reflexivity.
Defined.

(** X2 at a concrete input: the query [{a: 0}]. *)
Lemma lookup_unconstrained_witness :
  let t := insert_all (host := plainHost) (emptyTree index_ab) docs_abc in
  let q := [("a", VNum 0)] in
  wf (host := plainHost) t /\ index_of t <> [] /\
  Forall (fun f => truthy (get q (key f)) = false) (index_of t) /\
  lookup (host := plainHost) t q = Ok [doc_abc 1 1 4; doc_abc 1 2 3; doc_abc 2 1 3].
Proof.
  cbv zeta.
  destruct (built_tree (host := plainHost) index_ab docs_abc
              (numeric_index_total _ _ (docs_abc_numeric _ index_ab_keys)))
    as (Hwf & Hidx & _).
  assert (Forall (fun f => truthy (get [("a", VNum 0)] (key f)) = false)
            (index_of (insert_all (host := plainHost) (emptyTree index_ab) docs_abc)))
    as Hq by (rewrite Hidx; repeat constructor).
  split; [exact Hwf|]. split; [rewrite Hidx; discriminate|]. split; [exact Hq|].
  rewrite (lookup_unconstrained (host := plainHost) _ _ Hwf
             ltac:(rewrite Hidx; discriminate) Hq).
  vm_compute. reflexivity.
Defined.

(** X3 at a concrete input. *)
Lemma lookup_exact_witness :
  let q := [("b", VNum 1); ("a", VNum 1)] in
  index_ab <> [] /\ docs_abc <> [] /\ directed index_ab /\
  NoDup (map key index_ab) /\
  numeric_on index_ab docs_abc /\ numeric_query q /\
  Forall (fun f => truthy (get q (key f)) = true) index_ab /\
  lookup (host := plainHost) (insert_all (host := plainHost) (emptyTree index_ab) docs_abc) q
    = Ok [doc_abc 1 1 4].
Proof.
  cbv zeta.
  assert (directed index_ab) as Hdir by (repeat constructor; left; reflexivity).
  assert (NoDup (map key index_ab)) as Hnd
    by (refine (bool_decide_unpack _ _); vm_compute; exact I).
  assert (numeric_query [("b", VNum 1); ("a", VNum 1)]) as Hq
    by (repeat constructor; eexists; reflexivity).
  assert (Forall (fun f => truthy (get [("b", VNum 1); ("a", VNum 1)] (key f)) = true)
            index_ab) as Htr by (repeat constructor).
  pose proof (docs_abc_numeric _ index_ab_keys) as Hn.
  repeat (split; [first [discriminate|assumption]|]).
  rewrite (lookup_exact (host := plainHost) index_ab docs_abc _
             ltac:(discriminate) ltac:(discriminate) Hdir Hnd Hn Hq Htr).
  vm_compute. reflexivity.
Defined.

(** X4 at a concrete input: the query [{a: 1, c: 3}] on an index on [a],
    [b] and [c] returns both documents whose [a] is 1, also the one whose
    [c] is 4. *)
Lemma lookup_prefix_witness :
  let q := [("a", VNum 1); ("c", VNum 3)] in
  docs_abc <> [] /\
  (VNum 1 = VNum 1 \/ VNum 1 = VNum (-1)) /\
  numeric_on index_abc docs_abc /\ numeric_query q /\
  truthy (get q "a") = true /\
  get (del q "a") "b" = VUndef /\
  lookup (host := plainHost) (insert_all (host := plainHost) (emptyTree index_abc) docs_abc) q
    = Ok [doc_abc 1 1 4; doc_abc 1 2 3].
Proof.
  cbv zeta.
  assert (numeric_query [("a", VNum 1); ("c", VNum 3)]) as Hq
    by (repeat constructor; eexists; reflexivity).
  pose proof (docs_abc_numeric _ index_abc_keys) as Hn.
  split; [discriminate|]. split; [left; reflexivity|]. split; [exact Hn|].
  split; [exact Hq|]. split; [reflexivity|]. split; [reflexivity|].
  unfold index_abc.
  rewrite (lookup_prefix (host := plainHost)
             (IndexField "a" (VNum 1)) (IndexField "b" (VNum 1))
             [IndexField "c" (VNum 1)] docs_abc _
             ltac:(discriminate) (or_introl eq_refl) Hn Hq eq_refl eq_refl).
  vm_compute. reflexivity.
Defined.

(** X5 at a concrete input. *)
Lemma lookup_empty_tree_throws_witness :
  truthy (get [("a", VNum 1)] "a") = true /\
  lookup (host := plainHost) (emptyTree index_ab) [("a", VNum 1)] = Throw TypeError.
Proof.
  split; [reflexivity|].
  apply (lookup_empty_tree_throws (host := plainHost)
           (IndexField "a" (VNum 1)) [IndexField "b" (VNum 1)]).
  - reflexivity.
  - left. reflexivity.
Defined.
